(** * mitsuba-scene-description: the generator and the scene runtime, verified

    A shallow embedding of
    - [generator/generate_mitsuba_api.py]: [split_names], [TYPE_RULES],
      [map_type], [normalize], [camel], [render_class], and the runtime it
      emits as text ([Plugin], [serialize], [Ref], [Transform]);
    - [mitsuba_scene_description/scene.py]: [Scene] and [SceneBuilder].

    Text is modelled by 8-bit strings read as ASCII: the letter, digit and
    white-space classes below are Python's restricted to code points below
    128, and a byte above 127 belongs to no class. *)

From Stdlib Require Import ZArith Ascii String List Bool Lia DecimalString.
From Stdlib Require Import DecimalNat.
From stdpp Require Import base decidable option list strings gmap.

Set Warnings "-register-all".

Local Open Scope Z_scope.
Local Open Scope nat_scope.

(* ===================================================================== *)
(** ** Exceptions *)
(* ===================================================================== *)

(** The ways a modelled call can end without a value.  [OutOfFuel] is no
    Python exception: it marks a [while] loop cut off by its iteration
    budget, and is shown below never to arise. *)
Inductive exn : Type :=
| UnboundLocalError (var : string)
| NativeError
| OutOfFuel.

Inductive result (A : Type) : Type :=
| Ok (a : A)
| Raise (e : exn).
Arguments Ok {A} a.
Arguments Raise {A} e.

Definition bind {A B : Type} (r : result A) (k : A -> result B) : result B :=
  match r with
  | Ok a => k a
  | Raise e => Raise e
  end.

Notation "x <- r ;; k" := (bind r (fun x => k))
  (at level 100, r at next level, right associativity).

(** A [for] loop over [xs] threading the state [st] through [body]; an
    exception leaves the loop at once. *)
Fixpoint for_each {A S : Type} (body : S -> A -> result S)
         (xs : list A) (st : S) : result S :=
  match xs with
  | [] => Ok st
  | x :: rest => st' <- body st x ;; for_each body rest st'
  end.

(* ===================================================================== *)
(** ** Python's string methods, as far as the program uses them *)
(* ===================================================================== *)

Module PyStr.

Definition code (c : ascii) : nat := nat_of_ascii c.

Definition between (lo hi : nat) (c : ascii) : bool :=
  (lo <=? code c) && (code c <=? hi).

Definition is_upper (c : ascii) : bool := between 65 90 c.
Definition is_lower (c : ascii) : bool := between 97 122 c.
Definition is_digit (c : ascii) : bool := between 48 57 c.
Definition is_alpha (c : ascii) : bool := is_upper c || is_lower c.
Definition is_alnum (c : ascii) : bool := is_alpha c || is_digit c.

(** [\w] of the [re] module. *)
Definition is_word (c : ascii) : bool := is_alnum c || (code c =? 95).

(** The characters [str.strip()] removes: tab, line feed, vertical tab,
    form feed, carriage return, the four separators 28..31, and space. *)
Definition is_space (c : ascii) : bool :=
  between 9 13 c || between 28 32 c.

Definition lower_char (c : ascii) : ascii :=
  if is_upper c then ascii_of_nat (code c + 32) else c.
Definition upper_char (c : ascii) : ascii :=
  if is_lower c then ascii_of_nat (code c - 32) else c.

Fixpoint map_chars (f : ascii -> ascii) (s : string) : string :=
  match s with
  | EmptyString => EmptyString
  | String c r => String (f c) (map_chars f r)
  end.

(** [s.lower()] *)
Definition lower (s : string) : string := map_chars lower_char s.

Fixpoint rev_onto (s acc : string) : string :=
  match s with
  | EmptyString => acc
  | String c r => rev_onto r (String c acc)
  end.
Definition rev (s : string) : string := rev_onto s EmptyString.

Fixpoint lstrip_by (drop : ascii -> bool) (s : string) : string :=
  match s with
  | EmptyString => EmptyString
  | String c r => if drop c then lstrip_by drop r else s
  end.
Definition rstrip_by (drop : ascii -> bool) (s : string) : string :=
  rev (lstrip_by drop (rev s)).
Definition strip_by (drop : ascii -> bool) (s : string) : string :=
  rstrip_by drop (lstrip_by drop s).

(** [s.strip()] and [s.strip("_")] *)
Definition strip (s : string) : string := strip_by is_space s.
Definition strip_char (ch : ascii) (s : string) : string :=
  strip_by (fun c => code c =? code ch) s.

(** [s.startswith(p)] *)
Fixpoint startswith (p s : string) : bool :=
  match p, s with
  | EmptyString, _ => true
  | String a p', String b s' => (code a =? code b) && startswith p' s'
  | String _ _, EmptyString => false
  end.

(** [sub in s] *)
Fixpoint contains (sub s : string) : bool :=
  startswith sub s ||
  match s with
  | EmptyString => false
  | String _ r => contains sub r
  end.

Definition eqb (a b : string) : bool := bool_decide (a = b).

(** [s.split(sep)] for a one-character separator: never an empty list. *)
Fixpoint split_go (sep : ascii) (s cur : string) : list string :=
  match s with
  | EmptyString => [rev cur]
  | String c r =>
      if code c =? code sep then rev cur :: split_go sep r EmptyString
      else split_go sep r (String c cur)
  end.
Definition split (sep : ascii) (s : string) : list string :=
  split_go sep s EmptyString.

(** [sep.join(parts)] *)
Fixpoint join (sep : string) (parts : list string) : string :=
  match parts with
  | [] => EmptyString
  | [x] => x
  | x :: rest => x +:+ sep +:+ join sep rest
  end.

(** [s.replace(old, new)] for a non-empty [old]: occurrences are found
    from the left and do not overlap.  [skip] counts the characters of a
    match that are still to be passed over. *)
Fixpoint replace_go (old new : string) (skip : nat) (s : string) : string :=
  match s with
  | EmptyString => EmptyString
  | String c r =>
      match skip with
      | S k => replace_go old new k r
      | O =>
          if startswith old s
          then new +:+ replace_go old new (String.length old - 1) r
          else String c (replace_go old new 0 r)
      end
  end.
Definition replace (old new s : string) : string := replace_go old new 0 s.

(** [str(n)] for a non-negative integer. *)
Definition of_nat (n : nat) : string :=
  NilEmpty.string_of_uint (Nat.to_uint n).

(** [s.title()]: a cased letter is upper-cased after an uncased character
    (or at the start) and lower-cased after a cased one. *)
Fixpoint title_go (prev_cased : bool) (s : string) : string :=
  match s with
  | EmptyString => EmptyString
  | String c r =>
      if is_alpha c
      then String (if prev_cased then lower_char c else upper_char c)
                  (title_go true r)
      else String c (title_go false r)
  end.
Definition title (s : string) : string := title_go false s.

Fixpoint filter_chars (keep : ascii -> bool) (s : string) : string :=
  match s with
  | EmptyString => EmptyString
  | String c r =>
      if keep c then String c (filter_chars keep r) else filter_chars keep r
  end.

Definition dquote : ascii := ascii_of_nat 34.
Definition backslash : ascii := ascii_of_nat 92.
Definition newline : string := String (ascii_of_nat 10) EmptyString.
Definition quotes3 : string :=
  String dquote (String dquote (String dquote EmptyString)).

End PyStr.

(* ===================================================================== *)
(** ** The fragment of [re] the type rules are written in *)
(* ===================================================================== *)

Module Re.
Import PyStr.

(** Patterns: a literal compared without regard to case ([re.I]), the
    word boundary [\b], sequence, alternation and [?]. *)
Inductive rx : Type :=
| Lit (s : string)
| WordB
| Seq (a b : rx)
| Alt (a b : rx)
| Opt (a : rx).

Definition word_before (prev : option ascii) : bool :=
  match prev with Some c => is_word c | None => false end.
Definition word_after (s : string) : bool :=
  match s with String c _ => is_word c | EmptyString => false end.

(** Consume the literal [l] from the front of [s], ignoring case; the
    result is the last character passed and the rest of the text. *)
Fixpoint eat (l : string) (prev : option ascii) (s : string)
  : option (option ascii * string) :=
  match l with
  | EmptyString => Some (prev, s)
  | String a l' =>
      match s with
      | String b s' =>
          if code (lower_char a) =? code (lower_char b)
          then eat l' (Some b) s' else None
      | EmptyString => None
      end
  end.

(** Backtracking matcher in continuation-passing style: [k] is asked
    whether the rest of the pattern matches from where [r] stopped. *)
Fixpoint matches (r : rx) (prev : option ascii) (s : string)
         (k : option ascii -> string -> bool) : bool :=
  match r with
  | Lit l =>
      match eat l prev s with
      | Some (p', s') => k p' s'
      | None => false
      end
  | WordB => xorb (word_before prev) (word_after s) && k prev s
  | Seq a b => matches a prev s (fun p' s' => matches b p' s' k)
  | Alt a b => matches a prev s k || matches b prev s k
  | Opt a => matches a prev s k || k prev s
  end.

Definition match_at (r : rx) (prev : option ascii) (s : string) : bool :=
  matches r prev s (fun _ _ => true).

(** [rx.search(s)] as a truth value: a match starting at some position. *)
Fixpoint search_from (r : rx) (prev : option ascii) (s : string) : bool :=
  match_at r prev s ||
  match s with
  | EmptyString => false
  | String c s' => search_from r (Some c) s'
  end.
Definition search (r : rx) (s : string) : bool := search_from r None s.

(** [\bw\b] *)
Definition word (w : string) : rx := Seq WordB (Seq (Lit w) WordB).

Fixpoint alts (rs : list rx) : rx :=
  match rs with
  | [] => Lit EmptyString
  | [r] => r
  | r :: rest => Alt r (alts rest)
  end.

End Re.

(* ===================================================================== *)
(** ** generator/generate_mitsuba_api.py *)
(* ===================================================================== *)

Module Generator.
Import PyStr Re.

(** [split_names]: the comma-separated aliases of a name cell, stripped,
    the empty ones dropped; the cell itself when nothing is left. *)
Definition split_names (name : string) : list string :=
  let parts :=
    List.filter (fun p => negb (eqb p EmptyString))
                (map strip (split ","%char name)) in
  match parts with
  | [] => [name]
  | _ => parts
  end.

(** [TYPE_RULES], in the order of the source. *)
Definition TYPE_RULES : list (rx * string) :=
  [ (alts [word "float"; word "double"; word "scalar"], "float");
    (Seq WordB (Seq (Lit "int") (Seq (Opt (Lit "eger")) WordB)), "int");
    (Seq WordB (Seq (Lit "bool") (Seq (Opt (Lit "ean")) WordB)), "bool");
    (alts [word "string"; word "filename"; word "path"], "str");
    (alts [word "rgb"; word "color"], "List[float]");
    (word "spectrum", "Union[List[float], Plugin]");
    (word "transform", "Transform");
    (Seq WordB
       (Seq (alts [Lit "bsdf"; Lit "texture"; Lit "emitter"; Lit "shape";
                   Lit "sensor"; Lit "film"; Lit "sampler"; Lit "medium";
                   Lit "phase"; Lit "filter"; Lit "spectrum"; Lit "volume"])
            WordB),
     "Plugin") ].

(** The [for rx, out in TYPE_RULES] loop of [map_type]. *)
Fixpoint first_rule (rules : list (rx * string)) (t : string) : string :=
  match rules with
  | [] => "Plugin"
  | (r, out) :: rest => if search r t then out else first_rule rest t
  end.

Definition map_type (text : string) : string :=
  first_rule TYPE_RULES (strip text).

(** [normalize]: [re.sub(r"\W|^(?=\d)", "_", name)] puts an underscore for
    every non-word character and one in front of a leading digit. *)
Definition sub_nonword (name : string) : string :=
  let body := map_chars (fun c => if is_word c then c else "_"%char) name in
  match name with
  | String c _ => if is_digit c then String "_"%char body else body
  | EmptyString => body
  end.

Definition keywords : list string :=
  ["class"; "def"; "from"; "import"; "lambda"].

Definition normalize (name : string) : string :=
  let n := strip_char "_"%char (lower (sub_nonword name)) in
  let n := if existsb (eqb n) keywords then n +:+ "_" else n in
  if eqb n "" then "param" else n.

(** [camel]: [re.sub(r"[^0-9a-zA-Z]+", "", title.title()) or "PluginClass"] *)
Definition camel (title : string) : string :=
  let c := filter_chars is_alnum (PyStr.title title) in
  if eqb c "" then "PluginClass" else c.

(** A row of [extract_params]: the dict with keys name, type, desc, flags. *)
Record ParamRow : Type := mkRow {
  p_name : string;
  p_type : string;
  p_desc : string;
  p_flags : string
}.

(** A plugin spec of [parse_category_page]. *)
Record PluginSpec : Type := mkSpec {
  s_title : string;
  s_slug : string;
  s_url : string;
  s_params : list ParamRow
}.

(** The local variables of [render_class].  The three loop variables read
    after the loops are unbound ([None]) until first assigned. *)
Record Locals : Type := mkLocals {
  required_fields : list string;
  optional_fields : list string;
  required_ctor : list string;
  optional_ctor : list string;
  assigns : list string;
  docs : list string;
  seen : gset string;
  var_p : option ParamRow;
  var_raw_name : option string;
  var_marker_str : option string
}.

Definition init_locals : Locals :=
  mkLocals [] [] [] [] ["        self.id = id"] [] ∅ None None None.

(** [_esc] *)
Definition _esc (x : string) : string :=
  let x := replace (String backslash EmptyString)
                   (String backslash (String backslash EmptyString)) x in
  replace quotes3
          (String backslash (String dquote (String backslash (String dquote
             (String backslash (String dquote EmptyString)))))) x.

(** [unique]: the [while name in seen or not name] loop tries [base_2],
    [base_3], ... until a name is free.  The loop is given a budget of
    [size seen + 2] tests; [render_class] calls it on a non-empty name that
    is not in [seen], for which the first test ends it. *)
Fixpoint unique_loop (fuel : nat) (sn : gset string) (base name : string)
         (i : nat) : option string :=
  match fuel with
  | O => None
  | S f =>
      if bool_decide (name ∈ sn) || eqb name ""
      then unique_loop f sn base (base +:+ "_" +:+ of_nat i) (S i)
      else Some name
  end.

Definition unique (sn : gset string) (name : string)
  : option (string * gset string) :=
  match unique_loop (S (S (size sn))) sn name name 2 with
  | Some n => Some (n, {[n]} ∪ sn)
  | None => None
  end.

Definition field_required (nm ann : string) : string :=
  "    " +:+ nm +:+ ": " +:+ ann.
Definition ctor_required (nm ann : string) : string :=
  nm +:+ ": " +:+ ann.
Definition field_optional (nm ann : string) : string :=
  "    " +:+ nm +:+ ": " +:+ ann +:+ " = None".
Definition ctor_optional (nm ann : string) : string :=
  nm +:+ ": " +:+ ann +:+ " = None".
Definition assign_line (nm : string) : string :=
  "        self." +:+ nm +:+ " = " +:+ nm.

Definition annotation (is_required : bool) (type_text : string) : string :=
  let base_ann := map_type type_text in
  if is_required then base_ann else "Optional[" +:+ base_ann +:+ "]".

Definition markers_of (flags : string) : string :=
  let markers :=
    (if contains "p" flags then ["P"] else []) ++
    (if contains "∂" flags then ["∂"] else []) ++
    (if contains "d" flags then ["D"] else []) in
  let marker_str := join " | " markers in
  if negb (String.length marker_str =? 0)
  then "[" +:+ marker_str +:+ "]" else "".

Definition doc_line (raw_name type_text marker_str desc : string) : string :=
  "        - " +:+ _esc raw_name +:+ " (" +:+ _esc type_text +:+ "): " +:+
  marker_str +:+ " " +:+ _esc desc.

(** The body of [for raw_name in split_names(...)]. *)
Definition step_alias (p : ParamRow) (flags : string) (is_required : bool)
           (st : Locals) (raw_name : string) : result Locals :=
  let nm := normalize raw_name in
  if bool_decide (nm ∈ seen st)
  then Ok (mkLocals (required_fields st) (optional_fields st)
                    (required_ctor st) (optional_ctor st) (assigns st)
                    (docs st) (seen st)
                    (var_p st) (Some raw_name) (var_marker_str st))
  else
    let ann := annotation is_required (p_type p) in
    match unique (seen st) nm with
    | None => Raise OutOfFuel
    | Some (nm, seen') =>
        let marker_str := markers_of flags in
        Ok (mkLocals
              (if is_required
               then required_fields st ++ [field_required nm ann]
               else required_fields st)
              (if is_required
               then optional_fields st
               else optional_fields st ++ [field_optional nm ann])
              (if is_required
               then required_ctor st ++ [ctor_required nm ann]
               else required_ctor st)
              (if is_required
               then optional_ctor st
               else optional_ctor st ++ [ctor_optional nm ann])
              (assigns st ++ [assign_line nm])
              (docs st ++ [doc_line raw_name (p_type p) marker_str (p_desc p)])
              seen'
              (var_p st) (Some raw_name) (Some marker_str))
    end.

Definition excluded (flags : string) : bool :=
  existsb (fun tag => contains tag flags) ["state"; "derived"; "output"].

(** The body of [for p in params]. *)
Definition step_row (st : Locals) (p : ParamRow) : result Locals :=
  let st := mkLocals (required_fields st) (optional_fields st)
                     (required_ctor st) (optional_ctor st) (assigns st)
                     (docs st) (seen st)
                     (Some p) (var_raw_name st) (var_marker_str st) in
  let flags := lower (p_flags p) in
  if excluded flags then Ok st
  else
    let is_required := contains "required" flags in
    for_each (step_alias p flags is_required) (split_names (p_name p)) st.

Definition add_bsdf (st : Locals) (doc : string) : Locals :=
  mkLocals (required_fields st)
           (optional_fields st ++ ["    bsdf: Optional[Plugin] = None"])
           (required_ctor st)
           (optional_ctor st ++ ["bsdf: Optional[Plugin] = None"])
           (assigns st ++ ["        self.bsdf = bsdf"])
           (docs st ++ [doc])
           ({["bsdf"]} ∪ seen st)
           (var_p st) (var_raw_name st) (var_marker_str st).

(** Reading a local variable: unbound raises. *)
Definition read {A : Type} (var : string) (v : option A) : result A :=
  match v with
  | Some a => Ok a
  | None => Raise (UnboundLocalError var)
  end.

(** The first "inject optional bsdf" block (source lines 387-395): its doc
    line is formatted from the loop variables [raw_name], [p] and
    [marker_str], read in this order. *)
Definition inject_bsdf_1 (add_shape_bsdf : bool) (st : Locals)
  : result Locals :=
  if add_shape_bsdf && negb (bool_decide ("bsdf" ∈ seen st)) then
    raw_name <- read "raw_name" (var_raw_name st) ;;
    p <- read "p" (var_p st) ;;
    marker_str <- read "marker_str" (var_marker_str st) ;;
    Ok (add_bsdf st (doc_line raw_name (p_type p)
                              ("[" +:+ marker_str +:+ "]") (p_desc p)))
  else Ok st.

(** The second block (source lines 397-403), with the fixed doc line. *)
Definition inject_bsdf_2 (add_shape_bsdf : bool) (st : Locals) : Locals :=
  if add_shape_bsdf && negb (bool_decide ("bsdf" ∈ seen st))
  then add_bsdf st "        - bsdf (bsdf): [P] Surface scattering model"
  else st.

(** The keyword arguments handed to [CLASS_TMPL.format]. *)
Record ClassParts : Type := mkParts {
  cls : string;
  title : string;
  slug : string;
  url : string;
  param_docs : list string;
  fields : list string;
  ctor_args : list string;
  assignments : list string
}.

Definition finish (spec : PluginSpec) (st : Locals) : ClassParts :=
  let fields := required_fields st ++ optional_fields st in
  let empty := match fields with [] => true | _ => false end in
  mkParts
    (camel (if negb (eqb (s_title spec) "") then s_title spec else s_slug spec))
    (s_title spec) (s_slug spec) (s_url spec)
    (if empty then ["        (no parameters documented)"] else docs st)
    (if empty then ["    pass"] else fields)
    (required_ctor st ++ ["id: Optional[str] = None"] ++ optional_ctor st)
    (assigns st).

(** [category_name.lower().startswith("shape")] *)
Definition is_shape_category (category_name : string) : bool :=
  startswith "shape" (lower category_name).

(** [render_class] up to the call of [format]. *)
Definition render_parts (spec : PluginSpec) (category_name : string)
  : result ClassParts :=
  let add_shape_bsdf := is_shape_category category_name in
  st <- for_each step_row (s_params spec) init_locals ;;
  st <- inject_bsdf_1 add_shape_bsdf st ;;
  Ok (finish spec (inject_bsdf_2 add_shape_bsdf st)).

(** [CLASS_TMPL.format(...)] *)
Definition format_class (c : ClassParts) : string :=
  "@dataclass" +:+ newline +:+
  "class " +:+ cls c +:+ "(Plugin):" +:+ newline +:+
  "    " +:+ quotes3 +:+ title c +:+ " (" +:+ slug c +:+ ")" +:+ newline +:+
  "    " +:+ url c +:+ newline +:+
  "    Params:" +:+ newline +:+
  join newline (param_docs c) +:+ newline +:+
  "    " +:+ quotes3 +:+ newline +:+
  join newline (fields c) +:+ newline +:+
  newline +:+
  "    def __init__(self, " +:+ join ", " (ctor_args c) +:+ "):" +:+ newline +:+
  "        super().__init__(type=" +:+ String dquote (slug c) +:+
  String dquote ", id=id)" +:+ newline +:+
  join newline (assignments c) +:+ newline.

Definition render_class (spec : PluginSpec) (category_name : string)
  : result string :=
  parts <- render_parts spec category_name ;;
  Ok (format_class parts).


(* --------------------------------------------------------------------- *)
(** *** The parameter list in the words of the specification *)

(** An alias in encounter order: the row it stands in and its raw name. *)
Definition entry : Type := ParamRow * string.

Definition e_flags (e : entry) : string := lower (p_flags (fst e)).
Definition e_required (e : entry) : bool := contains "required" (e_flags e).
Definition e_ident (e : entry) : string := normalize (snd e).
Definition e_ann (e : entry) : string :=
  annotation (e_required e) (p_type (fst e)).
Definition e_doc (e : entry) : string :=
  doc_line (snd e) (p_type (fst e)) (markers_of (e_flags e)) (p_desc (fst e)).

(** The aliases of one row: none when the row is excluded by its flags. *)
Definition row_aliases (p : ParamRow) : list entry :=
  if excluded (lower (p_flags p)) then []
  else map (pair p) (split_names (p_name p)).

(** All aliases of the surviving rows, in encounter order. *)
Definition aliases (params : list ParamRow) : list entry :=
  flat_map row_aliases params.

(** First occurrence wins: an alias is kept unless its identifier is
    already among the kept ones. *)
Definition keep (kept : list entry) (e : entry) : list entry :=
  if bool_decide (e_ident e ∈ map e_ident kept) then kept else kept ++ [e].

Definition accepted (params : list ParamRow) : list entry :=
  fold_left keep (aliases params) [].

(** The locals of [render_class] once the aliases kept so far are [kept],
    the row and the raw name last visited are [last_p] and [last_raw]:
    required and optional entries in two groups, each in the order of
    [kept]; one assignment and one doc line per kept alias. *)
Definition state_of (last_p : option ParamRow) (last_raw : option string)
           (kept : list entry) : Locals :=
  mkLocals
    (map (fun e => field_required (e_ident e) (e_ann e))
         (List.filter e_required kept))
    (map (fun e => field_optional (e_ident e) (e_ann e))
         (List.filter (fun e => negb (e_required e)) kept))
    (map (fun e => ctor_required (e_ident e) (e_ann e))
         (List.filter e_required kept))
    (map (fun e => ctor_optional (e_ident e) (e_ann e))
         (List.filter (fun e => negb (e_required e)) kept))
    ("        self.id = id" :: map (fun e => assign_line (e_ident e)) kept)
    (map e_doc kept)
    (list_to_set (map e_ident kept))
    last_p last_raw
    (option_map (fun e => markers_of (e_flags e)) (last kept)).

(** Whether the optional [bsdf] entry is injected after the loops. *)
Definition injects_bsdf (category_name : string) (kept : list entry) : bool :=
  is_shape_category category_name &&
  negb (bool_decide ("bsdf" ∈ map e_ident kept)).

(** The value of a loop variable after a loop over [xs] that found it
    holding [before]. *)
Definition last_or {A : Type} (before : option A) (xs : list A) : option A :=
  match last xs with
  | Some x => Some x
  | None => before
  end.

(** Sections used as running examples: a sphere with two radius rows, an
    alias pair and a renderer-computed row; a sphere with one row; and a
    section whose table has no body row. *)
Definition sphere_spec : PluginSpec :=
  mkSpec "Sphere" "sphere" "https://example.org/shapes.html#sphere"
         [ mkRow "radius" "float" "Radius" "";
           mkRow "center, to_world" "point" "Center" "required";
           mkRow "x" "float" "internal" "state";
           mkRow "Radius" "int" "again" "" ].

Definition disk_spec : PluginSpec :=
  mkSpec "Disk" "disk" "https://example.org/shapes.html#disk"
         [ mkRow "radius" "float" "Radius" "" ].

Definition empty_spec : PluginSpec :=
  mkSpec "Sphere" "sphere" "https://example.org/shapes.html#sphere" [].

Definition parts_or_empty (r : result ClassParts) : ClassParts :=
  match r with
  | Ok parts => parts
  | Raise _ => mkParts "" "" "" "" [] [] [] []
  end.

Definition sphere_parts : ClassParts :=
  Eval vm_compute in parts_or_empty (render_parts sphere_spec "Shapes").

End Generator.

(* ===================================================================== *)
(** ** Python dictionaries with string keys *)
(* ===================================================================== *)

(** A [dict] keeps its keys in insertion order: an association list whose
    keys are distinct as long as it is built by [dict_set]. *)
Module Dict.

Definition dict (V : Type) : Type := list (string * V).

(** [d[k]] / [d.get(k)] *)
Fixpoint dict_get {V : Type} (k : string) (d : dict V) : option V :=
  match d with
  | [] => None
  | (k', v) :: rest => if bool_decide (k' = k) then Some v else dict_get k rest
  end.

(** [d[k] = v]: the value of an existing key is replaced where it stands,
    a new key is added at the end. *)
Fixpoint dict_set {V : Type} (k : string) (v : V) (d : dict V) : dict V :=
  match d with
  | [] => [(k, v)]
  | (k', v') :: rest =>
      if bool_decide (k' = k) then (k, v) :: rest
      else (k', v') :: dict_set k v rest
  end.

(** [len(d)] *)
Definition dict_len {V : Type} (d : dict V) : nat := length d.

Definition keys {V : Type} (d : dict V) : list string := map fst d.

End Dict.

(* ===================================================================== *)
(** ** The runtime emitted as [utils.py] *)
(* ===================================================================== *)

Module Utils.
Import Dict.

(** [mi.ScalarTransform4f], the renderer's transform type, as [to_mi] uses
    it: the identity [T()], the chained constructors called on it, the
    constructor from a nested list, and [@].  A constructor may reject its
    argument. *)
Record ScalarTransform4f (R T : Type) : Type := {
  T_new : T;
  T_translate : T -> list (option R) -> result T;
  T_scale : T -> list (option R) -> result T;
  T_rotate : T -> list R -> R -> result T;
  T_look_at : T -> list R -> list R -> list R -> result T;
  T_of_matrix : list (list R) -> result T;
  T_matmul : T -> T -> T
}.
Arguments T_new {R T}.
Arguments T_translate {R T}.
Arguments T_scale {R T}.
Arguments T_rotate {R T}.
Arguments T_look_at {R T}.
Arguments T_of_matrix {R T}.
Arguments T_matmul {R T}.

Section Runtime.
Context {R T : Type}.

(** One recorded operation: the dict appended to [_ops], by its "op" tag.
    A number slot of "value" holds a float or, after [scale], [None]. *)
Inductive step : Type :=
| Translate (value : list (option R))
| Scale (value : list (option R))
| Rotate (axis : list R) (angle : R)
| LookAt (origin target up : list R)
| Matrix (matrix : list (list R))
| Other (op : string).

Record Transform : Type := mkTransform { _ops : list step }.

Definition Transform_new : Transform := mkTransform [].

Definition append_op (self : Transform) (s : step) : Transform :=
  mkTransform (_ops self ++ [s]).

Definition translate (self : Transform) (x y z : R) : Transform :=
  append_op self (Translate [Some x; Some y; Some z]).

Definition scale (self : Transform) (x : R) (y z : option R) : Transform :=
  match y, z with
  | None, None => append_op self (Scale [Some x; Some x; Some x])
  | _, _ => append_op self (Scale [Some x; y; z])
  end.

Definition rotate (self : Transform) (ax ay az angle : R) : Transform :=
  append_op self (Rotate [ax; ay; az] angle).

Definition look_at (self : Transform) (origin target up : list R)
  : Transform :=
  append_op self (LookAt origin target up).

Definition matrix (self : Transform) (m4x4 : list (list R)) : Transform :=
  append_op self (Matrix m4x4).

(** The [if op == ...] chain of [to_mi]: the single-operation transform of
    a step, or nothing for an unknown tag ([continue]). *)
Definition piece_of (mi : ScalarTransform4f R T) (s : step)
  : result (option T) :=
  match s with
  | Translate v => piece <- T_translate mi (T_new mi) v ;; Ok (Some piece)
  | Scale v => piece <- T_scale mi (T_new mi) v ;; Ok (Some piece)
  | Rotate axis angle =>
      piece <- T_rotate mi (T_new mi) axis angle ;; Ok (Some piece)
  | LookAt origin target up =>
      piece <- T_look_at mi (T_new mi) origin target up ;; Ok (Some piece)
  | Matrix m => piece <- T_of_matrix mi m ;; Ok (Some piece)
  | Other _ => Ok None
  end.

Definition to_mi_step (mi : ScalarTransform4f R T) (cur : T) (s : step)
  : result T :=
  p <- piece_of mi s ;;
  match p with
  | Some piece => Ok (T_matmul mi piece cur)
  | None => Ok cur
  end.

(** [Transform.to_mi] *)
Definition to_mi (mi : ScalarTransform4f R T) (self : Transform) : result T :=
  for_each (to_mi_step mi) (_ops self) (T_new mi).

(** The single-operation transforms of recorded steps, in append order;
    a step with an unknown tag contributes none. *)
Fixpoint pieces_of (mi : ScalarTransform4f R T) (steps : list step)
  : result (list T) :=
  match steps with
  | [] => Ok []
  | s :: rest =>
      p <- piece_of mi s ;;
      ps <- pieces_of mi rest ;;
      Ok (match p with Some piece => piece :: ps | None => ps end)
  end.

(** Values of the authored graph.  A plugin is an instance of [Plugin] or
    of a class that inherits its [to_dict]: the type tag, the identifier,
    and the remaining dataclass fields in declaration order. *)
Inductive value : Type :=
| VNone
| VBool (b : bool)
| VInt (z : Z)
| VFloat (r : R)
| VStr (s : string)
| VList (vs : list value)
| VDict (kvs : list (string * value))
| VPlugin (p : Plugin)
| VTransform (t : Transform)
| VNative (m : T)
with Plugin : Type :=
| mkPlugin (type : string) (id : option string)
           (attrs : list (string * value)).

Definition ptype (p : Plugin) : string :=
  match p with mkPlugin ty _ _ => ty end.
Definition pid (p : Plugin) : option string :=
  match p with mkPlugin _ i _ => i end.
Definition pattrs (p : Plugin) : list (string * value) :=
  match p with mkPlugin _ _ fs => fs end.

(** [plugin.id = i] *)
Definition set_id (p : Plugin) (i : string) : Plugin :=
  mkPlugin (ptype p) (Some i) (pattrs p).

(** [RGB(value)] and [Ref(id)] *)
Definition RGB (v : list R) : Plugin :=
  mkPlugin "rgb" None [("value", VList (map VFloat v))].
Definition Ref (i : string) : Plugin := mkPlugin "ref" (Some i) [].

(** [serialize], with [Plugin.to_dict] for the dataclass case. *)
Fixpoint serialize (mi : ScalarTransform4f R T) (obj : value)
  : result value :=
  let fix each (vs : list value) : result (list value) :=
    match vs with
    | [] => Ok []
    | v :: rest =>
        v' <- serialize mi v ;; rest' <- each rest ;; Ok (v' :: rest')
    end in
  let fix items (kvs : list (string * value)) (out : dict value)
    : result (dict value) :=
    match kvs with
    | [] => Ok out
    | (k, v) :: rest =>
        v' <- serialize mi v ;; items rest (dict_set k v' out)
    end in
  let fix attributes (fs : list (string * value)) (out : dict value)
    : result (dict value) :=
    match fs with
    | [] => Ok out
    | (name, v) :: rest =>
        if bool_decide (name = "type") || bool_decide (name = "id")
        then attributes rest out
        else match v with
             | VNone => attributes rest out
             | _ => v' <- serialize mi v ;;
                    attributes rest (dict_set name v' out)
             end
    end in
  match obj with
  | VTransform t => m <- to_mi mi t ;; Ok (VNative m)
  | VNative _ => Ok obj
  | VPlugin (mkPlugin ty i fs) =>
      let out := [("type", VStr ty)] in
      let out := match i with
                 | Some i => dict_set "id" (VStr i) out
                 | None => out
                 end in
      out <- attributes fs out ;; Ok (VDict out)
  | VDict kvs => out <- items kvs [] ;; Ok (VDict out)
  | VList vs => out <- each vs ;; Ok (VList out)
  | _ => Ok obj
  end.

End Runtime.
Arguments step : clear implicits.
Arguments Transform : clear implicits.
Arguments value : clear implicits.
Arguments Plugin : clear implicits.

End Utils.

(* ===================================================================== *)
(** ** mitsuba_scene_description/scene.py *)
(* ===================================================================== *)

(** Plugins are passed by value.  The one mutation of an argument,
    [plugin.id = ...] in [add_asset] and [SceneBuilder.asset], is made
    explicit: both return the plugin as the call leaves it, next to the
    scene (or builder) as the call leaves it. *)
Module SceneModel.
Import PyStr Dict Utils.

Section Scene.
Context {R T : Type}.

Record Scene : Type := mkScene {
  scene_id : option string;
  integrator : option (Plugin R T);
  sensors : list (Plugin R T);
  shapes : dict (Plugin R T);
  emitters : dict (Plugin R T);
  media : dict (Plugin R T);
  assets : dict (Plugin R T)
}.

(** The [sensors] argument of [Scene.__init__]: [None], a list, or one
    plugin. *)
Inductive sensors_arg : Type :=
| NoSensors
| SensorList (l : list (Plugin R T))
| OneSensor (p : Plugin R T).

Definition or_empty {V : Type} (d : option (dict V)) : dict V :=
  match d with Some d => d | None => [] end.

(** [Scene.__init__] *)
Definition Scene_init (integrator : option (Plugin R T))
           (sensors : sensors_arg)
           (shapes emitters media assets : option (dict (Plugin R T)))
           (id : option string) : Scene :=
  mkScene id integrator
          (match sensors with
           | NoSensors => []
           | SensorList l => l
           | OneSensor p => [p]
           end)
          (or_empty shapes) (or_empty emitters) (or_empty media)
          (or_empty assets).

(** The identifier given to an asset that has none. *)
Definition auto_id (d : dict (Plugin R T)) : string :=
  "asset_" +:+ of_nat (dict_len d + 1).

(** [Scene.add_asset]: the scene and the plugin after the call, and the
    returned reference. *)
Definition add_asset (self : Scene) (plugin : Plugin R T)
  : Scene * Plugin R T * Plugin R T :=
  let plugin :=
    match pid plugin with
    | None => set_id plugin (auto_id (assets self))
    | Some _ => plugin
    end in
  (* [plugin.id], set by now: the empty default is never taken *)
  let key := match pid plugin with Some i => i | None => "" end in
  (mkScene (scene_id self) (integrator self) (sensors self) (shapes self)
           (emitters self) (media self)
           (dict_set key plugin (assets self)),
   plugin,
   Ref key).

(** [enumerate(l)] *)
Definition enumerate {A : Type} (l : list A) : list (nat * A) :=
  combine (seq 0 (length l)) l.

(** [d[k] = serialize(v)] *)
Definition put (mi : ScalarTransform4f R T) (d : dict (value R T))
           (k : string) (v : Plugin R T) : result (dict (value R T)) :=
  v' <- serialize mi (VPlugin v) ;; Ok (dict_set k v' d).

(** [for k, v in group.items(): d[k] = serialize(v)] *)
Definition put_all (mi : ScalarTransform4f R T)
           (group : dict (Plugin R T)) (d : dict (value R T))
  : result (dict (value R T)) :=
  for_each (fun d kv => put mi d (fst kv) (snd kv)) group d.

(** [Scene.to_dict] *)
Definition to_dict (mi : ScalarTransform4f R T) (self : Scene)
  : result (dict (value R T)) :=
  let d := [("type", VStr "scene")] in
  d <- match integrator self with
       | Some p => put mi d "integrator" p
       | None => Ok d
       end ;;
  d <- match sensors self with
       | [s] => put mi d "sensor" s
       | ss =>
           for_each (fun d i_s =>
                       put mi d ("sensor_" +:+ of_nat (fst i_s)) (snd i_s))
                    (enumerate ss) d
       end ;;
  d <- put_all mi (shapes self) d ;;
  d <- put_all mi (emitters self) d ;;
  d <- put_all mi (media self) d ;;
  d <- put_all mi (assets self) d ;;
  Ok (match scene_id self with
      | Some i => dict_set "id" (VStr i) d
      | None => d
      end).

(** The keys written after the sensor entries. *)
Definition group_keys (self : Scene) : list string :=
  keys (shapes self) ++ keys (emitters self) ++ keys (media self) ++
  keys (assets self).

(** [SceneBuilder] *)
Record SceneBuilder : Type := mkBuilder {
  _integrator : option (Plugin R T);
  _sensors : list (Plugin R T);
  _shapes : dict (Plugin R T);
  _emitters : dict (Plugin R T);
  _media : dict (Plugin R T);
  _assets : dict (Plugin R T);
  _id : option string
}.

Definition SceneBuilder_init : SceneBuilder :=
  mkBuilder None [] [] [] [] [] None.

Definition b_integrator (self : SceneBuilder) (plugin : Plugin R T)
  : SceneBuilder :=
  mkBuilder (Some plugin) (_sensors self) (_shapes self) (_emitters self)
            (_media self) (_assets self) (_id self).

Definition b_sensor (self : SceneBuilder) (plugin : Plugin R T)
  : SceneBuilder :=
  mkBuilder (_integrator self) (_sensors self ++ [plugin]) (_shapes self)
            (_emitters self) (_media self) (_assets self) (_id self).

Definition b_shape (self : SceneBuilder) (name : string)
           (plugin : Plugin R T) : SceneBuilder :=
  mkBuilder (_integrator self) (_sensors self)
            (dict_set name plugin (_shapes self))
            (_emitters self) (_media self) (_assets self) (_id self).

Definition b_emitter (self : SceneBuilder) (name : string)
           (plugin : Plugin R T) : SceneBuilder :=
  mkBuilder (_integrator self) (_sensors self) (_shapes self)
            (dict_set name plugin (_emitters self))
            (_media self) (_assets self) (_id self).

Definition b_medium (self : SceneBuilder) (name : string)
           (plugin : Plugin R T) : SceneBuilder :=
  mkBuilder (_integrator self) (_sensors self) (_shapes self)
            (_emitters self) (dict_set name plugin (_media self))
            (_assets self) (_id self).

(** [SceneBuilder.asset]: the builder and the plugin after the call. *)
Definition b_asset (self : SceneBuilder) (plugin : Plugin R T)
  : SceneBuilder * Plugin R T :=
  let plugin :=
    match pid plugin with
    | None => set_id plugin (auto_id (_assets self))
    | Some _ => plugin
    end in
  (* [plugin.id], set by now: the empty default is never taken *)
  let key := match pid plugin with Some i => i | None => "" end in
  (mkBuilder (_integrator self) (_sensors self) (_shapes self)
             (_emitters self) (_media self)
             (dict_set key plugin (_assets self)) (_id self),
   plugin).

Definition b_id (self : SceneBuilder) (id : string) : SceneBuilder :=
  mkBuilder (_integrator self) (_sensors self) (_shapes self)
            (_emitters self) (_media self) (_assets self) (Some id).

(** [SceneBuilder.build] *)
Definition build (self : SceneBuilder) : Scene :=
  Scene_init (_integrator self) (SensorList (_sensors self))
             (Some (_shapes self)) (Some (_emitters self))
             (Some (_media self)) (Some (_assets self)) (_id self).

End Scene.
Arguments Scene : clear implicits.
Arguments SceneBuilder : clear implicits.
Arguments sensors_arg : clear implicits.

End SceneModel.

(* ===================================================================== *)
(** ** An exact instance of the renderer's transform type *)
(* ===================================================================== *)

(** 4x4 matrices with integer entries, by rows, composed by the matrix
    product.  Translation and scaling are the homogeneous matrices of the
    renderer; a chained constructor multiplies the receiver from the right.
    Rotation and look-at, which need square roots and trigonometry, stay
    parameters of the instance. *)
Module Exact.
Import Utils.
Local Open Scope Z_scope.

Definition vec4 : Type := Z * Z * Z * Z.
Definition mat4 : Type := vec4 * vec4 * vec4 * vec4.
Definition point3 : Type := Z * Z * Z.

Definition dot (a b : vec4) : Z :=
  let '(a0, a1, a2, a3) := a in
  let '(b0, b1, b2, b3) := b in
  a0 * b0 + a1 * b1 + a2 * b2 + a3 * b3.

Definition col (j : nat) (m : mat4) : vec4 :=
  let pick (r : vec4) : Z :=
    let '(r0, r1, r2, r3) := r in
    match j with
    | O => r0
    | S O => r1
    | S (S O) => r2
    | _ => r3
    end in
  let '(m0, m1, m2, m3) := m in (pick m0, pick m1, pick m2, pick m3).

Definition row_times (r : vec4) (b : mat4) : vec4 :=
  (dot r (col 0 b), dot r (col 1 b), dot r (col 2 b), dot r (col 3 b)).

(** [a @ b] *)
Definition matmul (a b : mat4) : mat4 :=
  let '(a0, a1, a2, a3) := a in
  (row_times a0 b, row_times a1 b, row_times a2 b, row_times a3 b).

(** The matrix applied to a homogeneous column vector. *)
Definition apply4 (m : mat4) (v : vec4) : vec4 :=
  let '(m0, m1, m2, m3) := m in (dot m0 v, dot m1 v, dot m2 v, dot m3 v).

(** A transform applied to a point: the point at [w = 1], no division. *)
Definition transform_affine (m : mat4) (p : point3) : point3 :=
  let '(x, y, z) := p in
  let '(x', y', z', _) := apply4 m (x, y, z, 1) in (x', y', z').

Definition identity : mat4 :=
  ((1, 0, 0, 0), (0, 1, 0, 0), (0, 0, 1, 0), (0, 0, 0, 1)).

Definition translation (x y z : Z) : mat4 :=
  ((1, 0, 0, x), (0, 1, 0, y), (0, 0, 1, z), (0, 0, 0, 1)).

Definition scaling (x y z : Z) : mat4 :=
  ((x, 0, 0, 0), (0, y, 0, 0), (0, 0, z, 0), (0, 0, 0, 1)).

Definition on_vec3 (f : Z -> Z -> Z -> mat4) (self : mat4)
           (v : list (option Z)) : result mat4 :=
  match v with
  | [Some x; Some y; Some z] => Ok (matmul self (f x y z))
  | _ => Raise NativeError
  end.

Definition of_rows (m : list (list Z)) : result mat4 :=
  match m with
  | [[a0; a1; a2; a3]; [b0; b1; b2; b3];
     [c0; c1; c2; c3]; [d0; d1; d2; d3]] =>
      Ok ((a0, a1, a2, a3), (b0, b1, b2, b3),
          (c0, c1, c2, c3), (d0, d1, d2, d3))
  | _ => Raise NativeError
  end.

Definition exact
           (rot : mat4 -> list Z -> Z -> result mat4)
           (look : mat4 -> list Z -> list Z -> list Z -> result mat4)
  : ScalarTransform4f Z mat4 :=
  {| T_new := identity;
     T_translate := on_vec3 translation;
     T_scale := on_vec3 scaling;
     T_rotate := rot;
     T_look_at := look;
     T_of_matrix := of_rows;
     T_matmul := matmul |}.

(** An instance without rotation and look-at, for closed examples. *)
Definition plain : ScalarTransform4f Z mat4 :=
  exact (fun _ _ _ => Raise NativeError) (fun _ _ _ _ => Raise NativeError).

End Exact.

(* ===================================================================== *)
(** ** Running examples of the runtime *)
(* ===================================================================== *)

Module Examples.
Import Dict Utils SceneModel Exact.
Local Open Scope Z_scope.

(** [Transform().translate(1, 0, 0).scale(2, 2, 2)] *)
Definition move_then_grow : Transform Z :=
  scale (translate Transform_new 1 0 0) 2 (Some 2) (Some 2).

Definition grow_after_move : mat4 :=
  matmul (scaling 2 2 2) (translation 1 0 0).

Definition camera : Plugin Z mat4 :=
  mkPlugin "perspective" None [("fov", VInt 45)].
Definition second_camera : Plugin Z mat4 :=
  mkPlugin "orthographic" None [("to_world", VTransform move_then_grow)].
Definition ball : Plugin Z mat4 :=
  mkPlugin "sphere" None [("radius", VInt 1); ("bsdf", VNone)].
Definition red : Plugin Z mat4 :=
  mkPlugin "diffuse" None [("reflectance", VPlugin (RGB [1; 0; 0]))].
Definition blue : Plugin Z mat4 :=
  mkPlugin "diffuse" None [("reflectance", VPlugin (RGB [0; 0; 1]))].
Definition green : Plugin Z mat4 :=
  mkPlugin "diffuse" None [("reflectance", VPlugin (RGB [0; 1; 0]))].

Definition empty_scene : Scene Z mat4 :=
  Scene_init None NoSensors None None None None None.

(** One sensor, and a shape stored under the name "sensor". *)
Definition one_sensor_clash : Scene Z mat4 :=
  Scene_init None (OneSensor camera) (Some [("sensor", ball)])
             None None None None.

(** Two sensors, and a shape stored under the name "sensor". *)
Definition two_sensors_clash : Scene Z mat4 :=
  Scene_init None (SensorList [camera; second_camera])
             (Some [("sensor", ball)]) None None None None.

Definition one_sensor_scene : Scene Z mat4 :=
  Scene_init None (OneSensor camera) (Some [("ball", ball)])
             None None None (Some "main").

Definition two_sensors_scene : Scene Z mat4 :=
  Scene_init None (SensorList [camera; second_camera])
             (Some [("ball", ball)]) None None None None.

Definition dict_or_empty (r : result (dict (value Z mat4)))
  : dict (value Z mat4) :=
  match r with Ok d => d | Raise _ => [] end.

Definition one_sensor_dict : dict (value Z mat4) :=
  Eval vm_compute in dict_or_empty (to_dict plain one_sensor_scene).
Definition two_sensors_dict : dict (value Z mat4) :=
  Eval vm_compute in dict_or_empty (to_dict plain two_sensors_scene).

(** A scene whose only asset was added under the explicit identifier
    "asset_2". *)
Definition scene_with_asset_2 : Scene Z mat4 :=
  fst (fst (add_asset empty_scene (set_id red "asset_2"))).
Definition builder_with_asset_2 : SceneBuilder Z mat4 :=
  fst (b_asset SceneBuilder_init (set_id red "asset_2")).

End Examples.

(* ===================================================================== *)
(** ** generator/generate_mitsuba_api.py: table extraction *)
(* ===================================================================== *)

(** [section_has_param_table] and [extract_params] read a section through
    BeautifulSoup queries.  The model takes the answers of these queries as
    its input: the tables of [section.select("table")], each with the
    texts of its header cells and of the cells of its body rows. *)
Module Extract.
Import PyStr Re Generator.

(** A table as the parser's queries show it: [th] holds
    [th.get_text(strip=True)] for every cell of [table.select("th")], and
    [trs] holds, for every row of [table.select("tbody tr")], the texts
    [td.get_text(" ", strip=True)] of its cells [tr.select("td")]. *)
Record Table : Type := mkTable {
  th : list string;
  trs : list (list string)
}.

(** ["parameter" in " ".join(h) and "type" in " ".join(h)] *)
Definition header_ok (h_lower : list string) : bool :=
  contains "parameter" (join " " h_lower) && contains "type" (join " " h_lower).

(** [section_has_param_table] *)
Definition section_has_param_table (tables : list Table) : bool :=
  existsb (fun table =>
             let heads := map lower (th table) in
             match heads with
             | [] => false
             | _ => header_ok heads
             end) tables.

(** [next((i for i, h in enumerate(l) if test(h)), ...)], counting from
    [i]; [None] when no element passes. *)
Fixpoint index_where (test : string -> bool) (l : list string) (i : nat)
  : option nat :=
  match l with
  | [] => None
  | h :: rest => if test h then Some i else index_where test rest (S i)
  end.

(** [tds[idx].get_text(" ", strip=True) if idx < len(tds) else ""] *)
Definition cell (tds : list string) (idx : nat) : string := nth idx tds "".

(** The rows one qualifying table appends to [out]: the column indices
    default to 0, 1 and 2, a missing flags column ([-1] in the source,
    [None] here) gives empty flags, a body row without cells is skipped,
    and every alias of the name cell becomes a row. *)
Definition table_rows (table : Table) : list ParamRow :=
  let h_lower := map lower (th table) in
  let idx_name := default 0 (index_where (contains "parameter") h_lower 0) in
  let idx_type := default 1 (index_where (contains "type") h_lower 0) in
  let idx_desc :=
    default 2 (index_where (fun h => contains "description" h ||
                                     contains "desc" h) h_lower 0) in
  let idx_flags := index_where (contains "flags") h_lower 0 in
  flat_map
    (fun tds =>
       match tds with
       | [] => []
       | _ =>
           let raw_name := cell tds idx_name in
           let ptype := cell tds idx_type in
           let desc := cell tds idx_desc in
           let flags := match idx_flags with
                        | Some i => cell tds i
                        | None => ""
                        end in
           map (fun n => mkRow n ptype desc flags) (split_names raw_name)
       end)
    (trs table).

(** The [for table in section.select("table")] loop of [extract_params]:
    a table without the two headers is passed over, and the loop stops at
    the first table after which [out] is not empty. *)
Fixpoint extract_from (tables : list Table) (out : list ParamRow)
  : list ParamRow :=
  match tables with
  | [] => out
  | table :: rest =>
      if negb (header_ok (map lower (th table))) then extract_from rest out
      else
        let out := out ++ table_rows table in
        match out with
        | [] => extract_from rest out
        | _ => out
        end
  end.

(** [extract_params] *)
Definition extract_params (tables : list Table) : list ParamRow :=
  extract_from tables [].

(** A table with both headers that yields at least one row. *)
Definition yields_rows (table : Table) : bool :=
  header_ok (map lower (th table)) &&
  match table_rows table with [] => false | _ => true end.

(** A section whose parameter table has no body row. *)
Definition bare_section : list Table :=
  [ mkTable ["Parameter"; "Type"; "Description"] [] ].

End Extract.

(* ===================================================================== *)
(** ** Notions used to state the further properties *)
(* ===================================================================== *)

Module Notions.
Import PyStr Re Generator Dict Utils SceneModel.

(** The characters of a string. *)
Definition chars (s : string) : list ascii := list_ascii_of_string s.

(** Dropping the leading characters that satisfy [d], and dropping them
    at both ends: [lstrip_by] and [strip_by] on character lists. *)
Fixpoint dropw (d : ascii -> bool) (l : list ascii) : list ascii :=
  match l with
  | [] => []
  | c :: r => if d c then dropw d r else l
  end.

Definition trim (d : ascii -> bool) (l : list ascii) : list ascii :=
  List.rev (dropw d (List.rev (dropw d l))).

(** A lower-case letter, a digit or the underscore. *)
Definition ident_char (c : ascii) : bool :=
  is_lower c || is_digit c || (code c =? 95).

Definition no_comma (s : string) : Prop :=
  Forall (fun c => (code c =? code ","%char) = false) (chars s).

(** A name that [split_names] leaves alone: not empty, without white
    space at its ends, without comma. *)
Definition plain_name (x : string) : Prop :=
  x <> "" /\ strip x = x /\ no_comma x.

(** [re.sub(...).lower().strip("_")], the first line of [normalize]. *)
Definition stem (name : string) : string :=
  strip_char "_"%char (lower (sub_nonword name)).

(** The [i]-th candidate of [unique]: [f"{base}_{i}"]. *)
Definition candidate (base : string) (i : nat) : string :=
  base +:+ "_" +:+ of_nat i.

Definition lower_prev (p : option ascii) : option ascii :=
  option_map lower_char p.

(** The rows that are not excluded by their flags. *)
Definition surviving (params : list ParamRow) : list ParamRow :=
  List.filter (fun p => negb (excluded (lower (p_flags p)))) params.

(** The spec with other rows. *)
Definition with_params (spec : PluginSpec) (params : list ParamRow)
  : PluginSpec :=
  mkSpec (s_title spec) (s_slug spec) (s_url spec) params.

(** The keys [f"sensor_{i}"] and [f"asset_{i}"]. *)
Definition sensor_key (i : nat) : string := "sensor_" +:+ of_nat i.
Definition asset_key (i : nat) : string := "asset_" +:+ of_nat i.

Section Values.
Context {R T : Type}.

(** [refs = [scene.add_asset(p) for p in plugins]]: the scene after the
    calls and the references returned. *)
Fixpoint add_assets (self : Scene R T) (plugins : list (Plugin R T))
  : Scene R T * list (Plugin R T) :=
  match plugins with
  | [] => (self, [])
  | p :: rest =>
      let '(self, _, ref) := add_asset self p in
      let '(self, refs) := add_assets self rest in
      (self, ref :: refs)
  end.

(** A value in serialized form: no plugin and no transform builder is
    left in it, and the keys of every mapping are distinct. *)
Inductive serialized : value R T -> Prop :=
| ser_none : serialized VNone
| ser_bool b : serialized (VBool b)
| ser_int z : serialized (VInt z)
| ser_float r : serialized (VFloat r)
| ser_str s : serialized (VStr s)
| ser_native m : serialized (VNative m)
| ser_list vs : Forall serialized vs -> serialized (VList vs)
| ser_dict kvs :
    NoDup (keys kvs) -> Forall (fun kv => serialized (snd kv)) kvs ->
    serialized (VDict kvs).

Definition well_formed (d : dict (value R T)) : Prop :=
  NoDup (keys d) /\ Forall (fun kv => serialized (snd kv)) d.

(** Induction over values and plugins that reaches the values inside
    lists, mappings and attribute lists. *)
Section Induction.
Variables (P : value R T -> Prop) (Q : Plugin R T -> Prop).
Hypothesis HNone : P VNone.
Hypothesis HBool : forall b, P (VBool b).
Hypothesis HInt : forall z, P (VInt z).
Hypothesis HFloat : forall r, P (VFloat r).
Hypothesis HStr : forall s, P (VStr s).
Hypothesis HList : forall vs, Forall P vs -> P (VList vs).
Hypothesis HDict :
  forall kvs, Forall (fun kv => P (snd kv)) kvs -> P (VDict kvs).
Hypothesis HPlugin : forall p, Q p -> P (VPlugin p).
Hypothesis HTransform : forall t, P (VTransform t).
Hypothesis HNative : forall m, P (VNative m).
Hypothesis HmkPlugin :
  forall ty i fs, Forall (fun kv => P (snd kv)) fs -> Q (mkPlugin ty i fs).

Fixpoint value_induction (v : value R T) : P v :=
  match v with
  | VNone => HNone
  | VBool b => HBool b
  | VInt z => HInt z
  | VFloat r => HFloat r
  | VStr s => HStr s
  | VList vs =>
      HList vs
        ((fix go (l : list (value R T)) : Forall P l :=
            match l with
            | [] => @List.Forall_nil _ P
            | x :: r => @List.Forall_cons _ P x r (value_induction x) (go r)
            end) vs)
  | VDict kvs =>
      HDict kvs
        ((fix go (l : list (string * value R T))
           : Forall (fun kv => P (snd kv)) l :=
            match l with
            | [] => @List.Forall_nil _ (fun kv => P (snd kv))
            | (k, x) :: r =>
                @List.Forall_cons _ (fun kv => P (snd kv)) (k, x) r
                                  (value_induction x) (go r)
            end) kvs)
  | VPlugin p => HPlugin p (plugin_induction p)
  | VTransform t => HTransform t
  | VNative m => HNative m
  end
with plugin_induction (p : Plugin R T) : Q p :=
  match p with
  | mkPlugin ty i fs =>
      HmkPlugin ty i fs
        ((fix go (l : list (string * value R T))
           : Forall (fun kv => P (snd kv)) l :=
            match l with
            | [] => @List.Forall_nil _ (fun kv => P (snd kv))
            | (k, x) :: r =>
                @List.Forall_cons _ (fun kv => P (snd kv)) (k, x) r
                                  (value_induction x) (go r)
            end) fs)
  end.

End Induction.

Context (mi : ScalarTransform4f R T).

(** The three inner loops of [serialize], by themselves. *)
Fixpoint serialize_each (vs : list (value R T)) : result (list (value R T)) :=
  match vs with
  | [] => Ok []
  | v :: rest =>
      v' <- serialize mi v ;; rest' <- serialize_each rest ;; Ok (v' :: rest')
  end.

Fixpoint serialize_items (kvs : list (string * value R T))
         (out : dict (value R T)) : result (dict (value R T)) :=
  match kvs with
  | [] => Ok out
  | (k, v) :: rest =>
      v' <- serialize mi v ;; serialize_items rest (dict_set k v' out)
  end.

Fixpoint serialize_attrs (fs : list (string * value R T))
         (out : dict (value R T)) : result (dict (value R T)) :=
  match fs with
  | [] => Ok out
  | (name, v) :: rest =>
      if bool_decide (name = "type") || bool_decide (name = "id")
      then serialize_attrs rest out
      else match v with
           | VNone => serialize_attrs rest out
           | _ => v' <- serialize mi v ;;
                  serialize_attrs rest (dict_set name v' out)
           end
  end.

End Values.

End Notions.

(** Further examples: the mappings of two scenes with an asset. *)
Module MoreExamples.
Import Dict Utils SceneModel Exact Examples.

Definition asset_scene_dict : dict (value Z mat4) :=
  Eval vm_compute in dict_or_empty (to_dict plain scene_with_asset_2).

Definition red_scene_dict : dict (value Z mat4) :=
  Eval vm_compute in
    dict_or_empty (to_dict plain (fst (fst (add_asset empty_scene red)))).

End MoreExamples.

(** Case analysis on the eight bits of a character. *)
Ltac each_ascii c :=
  destruct c as [[] [] [] [] [] [] [] []]; try reflexivity; try discriminate.

(* ===================================================================== *)
(** * Properties of the generator *)
(* ===================================================================== *)

Section GeneratorFacts.
Import PyStr Re Generator.

Lemma first_rule_spec (rules : list (rx * string)) (t : string) :
  (exists pre r out post,
      rules = pre ++ (r, out) :: post /\
      forallb (fun ro => negb (search (fst ro) t)) pre = true /\
      search r t = true /\
      first_rule rules t = out) \/
  (forallb (fun ro => negb (search (fst ro) t)) rules = true /\
   first_rule rules t = "Plugin").
Proof.
  induction rules as [|[r out] rest IH]; simpl.
  - right. split; reflexivity.
  - destruct (search r t) eqn:Hr; simpl.
    + left. exists [], r, out, rest. repeat split; auto.
    + destruct IH as [(pre & r' & out' & post & -> & Hpre & Hm & Hout)|[Hall Hout]].
      * left. exists ((r, out) :: pre), r', out', post.
        simpl. rewrite Hr. simpl. repeat split; auto.
      * right. split; auto.
Qed.

(** C6. [map_type] is a total function that tries the rules of
    [TYPE_RULES] in order and answers with the first one that matches the
    stripped text, and with the plugin reference when none does.  "Float"
    gives float, "Integer" int, "Boolean or string" bool although the
    string rule matches it too, "Foo" and the empty text the plugin
    reference. *)
Theorem map_type_first_match :
  map_type "Float" = "float" /\
  map_type "Integer" = "int" /\
  map_type "Boolean or string" = "bool" /\
  (exists r, nth_error TYPE_RULES 3 = Some (r, "str") /\
             search r (strip "Boolean or string") = true) /\
  map_type "Foo" = "Plugin" /\
  map_type "" = "Plugin" /\
  forall text : string,
    (exists pre r out post,
        TYPE_RULES = pre ++ (r, out) :: post /\
        forallb (fun ro => negb (search (fst ro) (strip text))) pre = true /\
        search r (strip text) = true /\
        map_type text = out) \/
    (forallb (fun ro => negb (search (fst ro) (strip text))) TYPE_RULES = true /\
     map_type text = "Plugin").
Proof.
  repeat split; try reflexivity.
  - eexists. split; [reflexivity | vm_compute; reflexivity].
  - intros text. apply first_rule_spec.
Qed.

(** *** The loops of [render_class] *)

Lemma normalize_nonempty (raw : string) : normalize raw <> "".
Proof.
  unfold normalize, eqb.
  set (n := if existsb _ _ then _ else _).
  case_bool_decide; [discriminate | assumption].
Qed.

Lemma unique_fresh (sn : gset string) (nm : string) :
  nm ∉ sn -> nm <> "" -> unique sn nm = Some (nm, {[nm]} ∪ sn).
Proof.
  intros Hsn Hne. unfold unique. simpl. unfold eqb.
  rewrite (bool_decide_eq_false_2 _ Hsn), (bool_decide_eq_false_2 _ Hne).
  reflexivity.
Qed.

Lemma elem_of_idents (x : string) (kept : list entry) :
  x ∈ (list_to_set (map e_ident kept) : gset string) <-> x ∈ map e_ident kept.
Proof. apply elem_of_list_to_set. Qed.

Lemma last_or_cons {A : Type} (before : option A) (x : A) (xs : list A) :
  last_or before (x :: xs) = last_or (Some x) xs.
Proof.
  unfold last_or. destruct xs as [|y ys]; [reflexivity|].
  change (last (x :: y :: ys)) with (last (y :: ys)).
  destruct (last (y :: ys)) eqn:E; [reflexivity|].
  apply last_None in E. discriminate.
Qed.

Lemma last_or_app {A : Type} (before : option A) (xs ys : list A) :
  last_or before (xs ++ ys) = last_or (last_or before xs) ys.
Proof.
  revert before. induction xs as [|x xs IH]; intros before.
  - reflexivity.
  - simpl app. rewrite !last_or_cons. apply IH.
Qed.

Lemma keep_old (kept : list entry) (e : entry) :
  e_ident e ∈ map e_ident kept -> keep kept e = kept.
Proof.
  intros H. unfold keep. rewrite bool_decide_eq_true_2; auto.
Qed.

Lemma state_of_snoc (lp : option ParamRow) (lr : option string)
      (kept : list entry) (e : entry) :
  state_of lp lr (kept ++ [e]) =
  let st := state_of lp lr kept in
  let nm := e_ident e in
  let ann := e_ann e in
  mkLocals
    (if e_required e then required_fields st ++ [field_required nm ann]
     else required_fields st)
    (if e_required e then optional_fields st
     else optional_fields st ++ [field_optional nm ann])
    (if e_required e then required_ctor st ++ [ctor_required nm ann]
     else required_ctor st)
    (if e_required e then optional_ctor st
     else optional_ctor st ++ [ctor_optional nm ann])
    (assigns st ++ [assign_line nm])
    (docs st ++ [e_doc e])
    ({[nm]} ∪ seen st)
    lp lr (Some (markers_of (e_flags e))).
Proof.
  unfold state_of. cbn zeta. cbn [required_fields optional_fields
    required_ctor optional_ctor assigns docs seen].
  rewrite !List.filter_app, !map_app, last_snoc. cbn [List.filter map option_map].
  assert (Hs : (list_to_set (map e_ident kept ++ [e_ident e]) : gset string)
               = {[e_ident e]} ∪ list_to_set (map e_ident kept)).
  { rewrite list_to_set_app_L. simpl.
    rewrite (right_id_L ∅ (∪)). apply (comm_L (∪)). }
  rewrite Hs.
  destruct (e_required e); cbn [negb app map]; rewrite ?app_nil_r; reflexivity.
Qed.

Lemma step_alias_spec (p : ParamRow) (lp : option ParamRow)
      (lr : option string) (kept : list entry) (raw : string) :
  step_alias p (lower (p_flags p)) (contains "required" (lower (p_flags p)))
             (state_of lp lr kept) raw
  = Ok (state_of lp (Some raw) (keep kept (p, raw))).
Proof.
  unfold step_alias.
  destruct (bool_decide (normalize raw ∈ seen (state_of lp lr kept))) eqn:Hin.
  - apply bool_decide_eq_true_1 in Hin. apply elem_of_idents in Hin.
    rewrite keep_old; [reflexivity | exact Hin].
  - apply bool_decide_eq_false_1 in Hin.
    rewrite (unique_fresh _ _ Hin (normalize_nonempty raw)).
    unfold keep. rewrite bool_decide_eq_false_2.
    2:{ intros H. apply Hin. apply elem_of_idents. exact H. }
    rewrite state_of_snoc. reflexivity.
Qed.

Lemma aliases_loop_spec (p : ParamRow) (raws : list string) :
  forall (lp : option ParamRow) (lr : option string) (kept : list entry),
    for_each (step_alias p (lower (p_flags p))
                         (contains "required" (lower (p_flags p))))
             raws (state_of lp lr kept)
    = Ok (state_of lp (last_or lr raws)
                   (fold_left keep (map (pair p) raws) kept)).
Proof.
  induction raws as [|raw rest IH]; intros lp lr kept.
  - reflexivity.
  - cbn [for_each]. rewrite step_alias_spec. cbn [bind].
    rewrite IH, last_or_cons. reflexivity.
Qed.

Lemma step_row_spec (p : ParamRow) (lp : option ParamRow)
      (lr : option string) (kept : list entry) :
  step_row (state_of lp lr kept) p
  = Ok (state_of (Some p) (last_or lr (map snd (row_aliases p)))
                 (fold_left keep (row_aliases p) kept)).
Proof.
  unfold step_row, row_aliases.
  change (mkLocals _ _ _ _ _ _ _ (Some p) _ _) with (state_of (Some p) lr kept).
  destruct (excluded (lower (p_flags p))).
  - reflexivity.
  - rewrite aliases_loop_spec. rewrite map_map. cbn [snd]. rewrite map_id.
    reflexivity.
Qed.

Lemma rows_loop_spec (params : list ParamRow) :
  forall (lp : option ParamRow) (lr : option string) (kept : list entry),
    for_each step_row params (state_of lp lr kept)
    = Ok (state_of (last_or lp params)
                   (last_or lr (map snd (aliases params)))
                   (fold_left keep (aliases params) kept)).
Proof.
  induction params as [|p rest IH]; intros lp lr kept.
  - reflexivity.
  - cbn [for_each]. rewrite step_row_spec. cbn [bind]. rewrite IH.
    unfold aliases. cbn [flat_map]. fold (aliases rest).
    rewrite map_app, last_or_app, fold_left_app, last_or_cons. reflexivity.
Qed.

(** *** What first-occurrence-wins keeps *)

Lemma keep_cases (kept : list entry) (e : entry) :
  ((e_ident e ∈ map e_ident kept) /\ keep kept e = kept) \/
  ((e_ident e ∉ map e_ident kept) /\ keep kept e = kept ++ [e]).
Proof.
  unfold keep. case_bool_decide; [left | right]; split; auto.
Qed.

Lemma elem_of_map_ident (x : string) (l : list entry) :
  x ∈ map e_ident l <-> exists e, e ∈ l /\ e_ident e = x.
Proof.
  rewrite list_elem_of_In, in_map_iff. split.
  - intros (e & He & Hin). exists e. rewrite list_elem_of_In. auto.
  - intros (e & Hin & He). exists e. rewrite <- list_elem_of_In. auto.
Qed.

Lemma fold_keep_grows (xs : list entry) :
  forall kept, exists added,
    fold_left keep xs kept = kept ++ added /\ sublist added xs.
Proof.
  induction xs as [|x xs IH]; intros kept; cbn [fold_left].
  - exists []. rewrite app_nil_r. split; [reflexivity | constructor].
  - destruct (keep_cases kept x) as [[_ ->]|[_ ->]].
    + destruct (IH kept) as (added & -> & Hsub).
      exists added. split; [reflexivity | by apply sublist_cons].
    + destruct (IH (kept ++ [x])) as (added & -> & Hsub).
      exists (x :: added). rewrite <- app_assoc. split; [reflexivity|].
      by apply sublist_skip.
Qed.

Lemma fold_keep_idents (xs : list entry) :
  forall kept x,
    x ∈ map e_ident (fold_left keep xs kept) <->
    x ∈ map e_ident kept \/ x ∈ map e_ident xs.
Proof.
  induction xs as [|y xs IH]; intros kept x; cbn [fold_left map].
  - rewrite elem_of_nil. tauto.
  - rewrite IH, elem_of_cons.
    destruct (keep_cases kept y) as [[Hin ->]|[Hnin ->]].
    + split; [tauto|]. intros [H|[->|H]]; auto.
    + rewrite map_app, elem_of_app. cbn [map].
      rewrite list_elem_of_singleton. tauto.
Qed.

Lemma fold_keep_NoDup (xs : list entry) :
  forall kept,
    NoDup (map e_ident kept) -> NoDup (map e_ident (fold_left keep xs kept)).
Proof.
  induction xs as [|y xs IH]; intros kept Hnd; cbn [fold_left].
  - exact Hnd.
  - apply IH. destruct (keep_cases kept y) as [[_ ->]|[Hnin ->]]; [exact Hnd|].
    rewrite map_app. cbn [map]. apply NoDup_app. repeat split.
    + exact Hnd.
    + intros x Hx Hx'. apply list_elem_of_singleton in Hx'. subst. auto.
    + apply NoDup_singleton.
Qed.

Lemma fold_keep_mono (xs : list entry) :
  forall kept e, e ∈ kept -> e ∈ fold_left keep xs kept.
Proof.
  intros kept e He. destruct (fold_keep_grows xs kept) as (added & -> & _).
  apply elem_of_app. auto.
Qed.

(** The first alias carrying an identifier is the one that is kept. *)
Lemma fold_keep_first (pre post : list entry) (k : entry) (kept : list entry) :
  e_ident k ∉ map e_ident kept ->
  e_ident k ∉ map e_ident pre ->
  k ∈ fold_left keep (pre ++ k :: post) kept.
Proof.
  intros Hk Hpre. rewrite fold_left_app. cbn [fold_left].
  apply fold_keep_mono.
  destruct (keep_cases (fold_left keep pre kept) k) as [[Hin _]|[_ ->]].
  - apply fold_keep_idents in Hin. tauto.
  - apply elem_of_app. right. apply list_elem_of_singleton. reflexivity.
Qed.

(** Every element of a list has a first element with the same identifier. *)
Lemma first_with_ident (xs : list entry) (e : entry) :
  e ∈ xs ->
  exists pre k post,
    xs = pre ++ k :: post /\ e_ident k = e_ident e /\
    e_ident e ∉ map e_ident pre.
Proof.
  induction xs as [|x xs IH]; intros He.
  - apply elem_of_nil in He. contradiction.
  - destruct (decide (e_ident x = e_ident e)) as [Heq|Hne].
    + exists [], x, xs. repeat split; auto. cbn [map]. apply not_elem_of_nil.
    + apply elem_of_cons in He. destruct He as [->|He]; [congruence|].
      destruct (IH He) as (pre & k & post & -> & Hk & Hpre).
      exists (x :: pre), k, post. repeat split; auto.
      cbn [map]. rewrite elem_of_cons. intros [H|H]; auto.
Qed.

Lemma accepted_NoDup (params : list ParamRow) :
  NoDup (map e_ident (accepted params)).
Proof. apply fold_keep_NoDup. cbn [map]. apply NoDup_nil_2. Qed.

Lemma accepted_sublist (params : list ParamRow) :
  sublist (accepted params) (aliases params).
Proof.
  unfold accepted.
  destruct (fold_keep_grows (aliases params) []) as (added & -> & H).
  exact H.
Qed.

Lemma accepted_nil (params : list ParamRow) :
  accepted params = [] -> aliases params = [].
Proof.
  unfold accepted. intros H.
  destruct (aliases params) as [|a rest]; [reflexivity|].
  exfalso. cbn [fold_left] in H.
  assert (Ha : a ∈ fold_left keep rest (keep [] a)).
  { apply fold_keep_mono. unfold keep. cbn [map].
    rewrite bool_decide_eq_false_2 by apply not_elem_of_nil.
    apply list_elem_of_singleton. reflexivity. }
  rewrite H in Ha. apply elem_of_nil in Ha. exact Ha.
Qed.

(** *** [render_class] as a whole *)

Lemma rows_loop_init (params : list ParamRow) :
  for_each step_row params init_locals
  = Ok (state_of (last params) (last (map snd (aliases params)))
                 (accepted params)).
Proof.
  change init_locals with (state_of None None []).
  rewrite rows_loop_spec. unfold last_or, accepted.
  destruct (last params), (last (map snd (aliases params))); reflexivity.
Qed.

(** The second injection block never runs: whenever the first one returns,
    "bsdf" is in [seen] or the category is no shape category. *)
Lemma inject_bsdf_2_dead (b : bool) (st st' : Locals) :
  inject_bsdf_1 b st = Ok st' -> inject_bsdf_2 b st' = st'.
Proof.
  unfold inject_bsdf_1, inject_bsdf_2.
  destruct (b && negb (bool_decide ("bsdf" ∈ seen st))) eqn:Hc.
  - destruct (var_raw_name st); [|discriminate].
    destruct (var_p st); [|discriminate].
    destruct (var_marker_str st); [|discriminate].
    cbn [read bind]. intros [= <-]. cbn [add_bsdf seen].
    rewrite (bool_decide_eq_true_2 ("bsdf" ∈ {["bsdf"]} ∪ seen st)).
    + rewrite andb_false_r. reflexivity.
    + apply elem_of_union. left. apply elem_of_singleton. reflexivity.
  - intros [= <-]. rewrite Hc. reflexivity.
Qed.

(** With no alias kept, a shape category makes [render_class] read the
    loop variable [raw_name] before it was ever bound. *)
Lemma render_parts_unbound (spec : PluginSpec) (category_name : string) :
  is_shape_category category_name = true ->
  accepted (s_params spec) = [] ->
  render_parts spec category_name = Raise (UnboundLocalError "raw_name").
Proof.
  intros Hs He. unfold render_parts. rewrite rows_loop_init, Hs.
  rewrite (accepted_nil _ He), He. cbn [bind]. reflexivity.
Qed.

(** In every other case [render_class] returns. *)
Lemma render_parts_returns (spec : PluginSpec) (category_name : string) :
  is_shape_category category_name = false \/ accepted (s_params spec) <> [] ->
  exists parts, render_parts spec category_name = Ok parts.
Proof.
  intros H. unfold render_parts. rewrite rows_loop_init. cbn [bind].
  unfold inject_bsdf_1.
  destruct (is_shape_category category_name && _) eqn:Hc;
    [|cbn [bind]; eauto].
  destruct H as [H|H]; [rewrite H in Hc; discriminate|].
  cbn [state_of var_raw_name var_p var_marker_str].
  destruct (accepted (s_params spec)) as [|e0 es] eqn:He; [congruence|].
  assert (Hal : aliases (s_params spec) <> []).
  { intros Hn. pose proof (accepted_sublist (s_params spec)) as Hsub.
    rewrite He, Hn in Hsub. apply sublist_nil_r in Hsub. discriminate. }
  assert (Hpar : s_params spec <> []).
  { intros Hn. apply Hal. rewrite Hn. reflexivity. }
  destruct (last (map snd (aliases (s_params spec)))) eqn:E1.
  2:{ apply last_None in E1. apply map_eq_nil in E1. contradiction. }
  destruct (last (s_params spec)) eqn:E2.
  2:{ apply last_None in E2. contradiction. }
  destruct (last (e0 :: es)) eqn:E3.
  2:{ apply last_None in E3. discriminate. }
  cbn [read bind option_map]. eauto.
Qed.

(** So [render_class] either returns or raises that one error; the
    iteration budget of [unique] is never exhausted. *)
Lemma render_parts_outcome (spec : PluginSpec) (category_name : string) :
  (exists parts, render_parts spec category_name = Ok parts) \/
  render_parts spec category_name = Raise (UnboundLocalError "raw_name").
Proof.
  destruct (is_shape_category category_name) eqn:Hs.
  - destruct (accepted (s_params spec)) as [|e es] eqn:He.
    + right. apply render_parts_unbound; assumption.
    + left. apply render_parts_returns. right. rewrite He. discriminate.
  - left. apply render_parts_returns. left. exact Hs.
Qed.

Lemma partition_nil (f : entry -> bool) (l : list entry) :
  List.filter f l ++ List.filter (fun e => negb (f e)) l = [] -> l = [].
Proof.
  destruct l as [|x l]; [reflexivity|]. cbn [List.filter].
  destruct (f x); cbn [negb app]; [discriminate|].
  intros H. apply app_eq_nil in H. destruct H as [_ H]. discriminate.
Qed.

Lemma bsdf_seen (kept : list entry) (lp : option ParamRow)
      (lr : option string) :
  bool_decide ("bsdf" ∈ seen (state_of lp lr kept))
  = bool_decide ("bsdf" ∈ map e_ident kept).
Proof. apply bool_decide_ext. apply elem_of_idents. Qed.

(** What [render_class] hands to the template when it returns. *)
Lemma render_parts_ok (spec : PluginSpec) (category_name : string)
      (parts : ClassParts) :
  render_parts spec category_name = Ok parts ->
  let kept := accepted (s_params spec) in
  let req := List.filter e_required kept in
  let opt := List.filter (fun e => negb (e_required e)) kept in
  let inj := injects_bsdf category_name kept in
  fields parts =
    match kept with
    | [] => ["    pass"]
    | _ => map (fun e => field_required (e_ident e) (e_ann e)) req ++
           map (fun e => field_optional (e_ident e) (e_ann e)) opt ++
           (if inj then ["    bsdf: Optional[Plugin] = None"] else [])
    end /\
  ctor_args parts =
    map (fun e => ctor_required (e_ident e) (e_ann e)) req ++
    ["id: Optional[str] = None"] ++
    map (fun e => ctor_optional (e_ident e) (e_ann e)) opt ++
    (if inj then ["bsdf: Optional[Plugin] = None"] else []) /\
  assignments parts =
    "        self.id = id" ::
    map assign_line
        (map e_ident kept ++ (if inj then ["bsdf"] else [])).
Proof.
  intros Hok kept req opt inj.
  assert (Hne : is_shape_category category_name = true -> kept <> []).
  { intros Hs Hk. rewrite (render_parts_unbound _ _ Hs Hk) in Hok.
    discriminate. }
  unfold render_parts in Hok. rewrite rows_loop_init in Hok.
  cbn [bind] in Hok. fold kept in Hok.
  destruct (inject_bsdf_1 _ _) as [st'|] eqn:H1; [|discriminate].
  cbn [bind] in Hok. rewrite (inject_bsdf_2_dead _ _ _ H1) in Hok.
  injection Hok as <-. unfold inject_bsdf_1 in H1.
  rewrite bsdf_seen in H1. fold (injects_bsdf category_name kept) in H1.
  fold inj in H1. destruct inj eqn:Hinj.
  - assert (Hs : is_shape_category category_name = true).
    { unfold inj, injects_bsdf in Hinj. apply andb_prop in Hinj. tauto. }
    specialize (Hne Hs).
    destruct (read "raw_name" _) as [raw|]; [|discriminate].
    destruct (read "p" _) as [p|]; [|discriminate].
    destruct (read "marker_str" _) as [ms|]; [|discriminate].
    cbn [bind] in H1. injection H1 as <-.
    unfold finish. cbn [fields ctor_args assignments add_bsdf state_of
      required_fields optional_fields required_ctor optional_ctor assigns].
    fold req opt. rewrite !map_app. cbn [map].
    split; [|split].
    + destruct kept as [|k0 ks] eqn:Hk; [congruence|].
      destruct (map _ req ++ map _ opt ++ _) eqn:Hf; [|reflexivity].
      apply app_eq_nil in Hf. destruct Hf as [_ Hf].
      apply app_eq_nil in Hf. destruct Hf as [_ Hf]. discriminate.
    + reflexivity.
    + rewrite map_map. reflexivity.
  - injection H1 as <-.
    unfold finish. cbn [fields ctor_args assignments state_of
      required_fields optional_fields required_ctor optional_ctor assigns].
    fold req opt. rewrite !app_nil_r.
    split; [|split].
    + destruct (map _ req ++ map _ opt) eqn:Hf.
      * apply app_eq_nil in Hf. destruct Hf as [Hr Ho].
        apply map_eq_nil in Hr, Ho.
        assert (Hk : kept = []).
        { apply (partition_nil e_required). fold req opt.
          rewrite Hr, Ho. reflexivity. }
        rewrite Hk. reflexivity.
      * destruct kept as [|k0 ks] eqn:Hk; [discriminate|]. reflexivity.
    + reflexivity.
    + rewrite map_map. reflexivity.
Qed.

Lemma NoDup_ident_inj (l : list entry) (a b : entry) :
  NoDup (map e_ident l) -> a ∈ l -> b ∈ l -> e_ident a = e_ident b -> a = b.
Proof.
  induction l as [|x l IH]; intros Hnd Ha Hb Hab.
  - apply elem_of_nil in Ha. contradiction.
  - cbn [map] in Hnd. apply NoDup_cons in Hnd. destruct Hnd as [Hx Hnd].
    apply elem_of_cons in Ha. apply elem_of_cons in Hb.
    destruct Ha as [->|Ha], Hb as [->|Hb]; auto.
    + exfalso. apply Hx. apply elem_of_map_ident. exists b. auto.
    + exfalso. apply Hx. apply elem_of_map_ident. exists a. auto.
Qed.

(** C5. Whenever [render_class] returns, its field declarations are the
    declarations of the required entries followed by those of the optional
    entries, and its constructor arguments are the required ones, then the
    identifier argument, then the optional ones; both groups are the kept
    aliases filtered by their required flag, and the kept aliases are a
    subsequence of the aliases in encounter order.  (The injected [bsdf]
    entry, being optional, comes last; a class without entries declares
    [pass].) *)
Theorem required_before_optional
        (spec : PluginSpec) (category_name : string) (parts : ClassParts) :
  render_parts spec category_name = Ok parts ->
  let kept := accepted (s_params spec) in
  let req := List.filter e_required kept in
  let opt := List.filter (fun e => negb (e_required e)) kept in
  let inj := injects_bsdf category_name kept in
  sublist kept (aliases (s_params spec)) /\
  fields parts =
    match kept with
    | [] => ["    pass"]
    | _ => map (fun e => field_required (e_ident e) (e_ann e)) req ++
           map (fun e => field_optional (e_ident e) (e_ann e)) opt ++
           (if inj then ["    bsdf: Optional[Plugin] = None"] else [])
    end /\
  ctor_args parts =
    map (fun e => ctor_required (e_ident e) (e_ann e)) req ++
    ["id: Optional[str] = None"] ++
    map (fun e => ctor_optional (e_ident e) (e_ann e)) opt ++
    (if inj then ["bsdf: Optional[Plugin] = None"] else []).
Proof.
  intros Hok. cbv zeta.
  destruct (render_parts_ok _ _ _ Hok) as (Hf & Hc & _).
  split; [apply accepted_sublist|]. split; assumption.
Qed.

Lemma required_before_optional_witness :
  render_parts sphere_spec "Shapes" = Ok sphere_parts /\
  fields sphere_parts =
    [ "    center: Plugin"; "    to_world: Plugin";
      "    radius: Optional[float] = None";
      "    bsdf: Optional[Plugin] = None" ] /\
  ctor_args sphere_parts =
    [ "center: Plugin"; "to_world: Plugin"; "id: Optional[str] = None";
      "radius: Optional[float] = None"; "bsdf: Optional[Plugin] = None" ].
Proof.
  assert (H : render_parts sphere_spec "Shapes" = Ok sphere_parts)
    by (vm_compute; reflexivity).
  split; [exact H|].
  destruct (required_before_optional sphere_spec "Shapes" sphere_parts H)
    as (_ & Hf & Hc).
  split; [rewrite Hf | rewrite Hc]; vm_compute; reflexivity.
Defined.

(** C9. Whenever [render_class] returns, the identifiers it assigns are
    those of the kept aliases (and [bsdf] when injected), no identifier
    twice, each one the plain [normalize] of a raw name; and for every
    alias of a surviving row, the alias kept under its identifier is the
    first alias in encounter order that normalizes to it. *)
Theorem first_occurrence_wins
        (spec : PluginSpec) (category_name : string) (parts : ClassParts) :
  render_parts spec category_name = Ok parts ->
  let all := aliases (s_params spec) in
  let kept := accepted (s_params spec) in
  let ids := map (fun e => normalize (snd e)) kept ++
             (if injects_bsdf category_name kept then ["bsdf"] else []) in
  assignments parts = "        self.id = id" :: map assign_line ids /\
  NoDup ids /\
  sublist kept all /\
  forall e : entry, e ∈ all ->
    exists pre k post,
      all = pre ++ k :: post /\
      normalize (snd k) = normalize (snd e) /\
      (normalize (snd e) ∉ map (fun a => normalize (snd a)) pre) /\
      k ∈ kept /\
      forall k' : entry,
        k' ∈ kept -> normalize (snd k') = normalize (snd e) -> k' = k.
Proof.
  intros Hok. cbv zeta.
  destruct (render_parts_ok _ _ _ Hok) as (_ & _ & Ha).
  change (fun e : entry => normalize (snd e)) with e_ident.
  split; [exact Ha|]. split; [|split].
  - apply NoDup_app. split; [apply accepted_NoDup|]. split.
    + intros x Hx. unfold injects_bsdf.
      destruct (is_shape_category category_name); cbn [andb];
        [|apply not_elem_of_nil].
      case_bool_decide; cbn [negb]; [apply not_elem_of_nil|].
      intros Hb. apply list_elem_of_singleton in Hb. subst. contradiction.
    + destruct (injects_bsdf _ _); [apply NoDup_singleton | apply NoDup_nil_2].
  - apply accepted_sublist.
  - intros e He.
    destruct (first_with_ident _ _ He) as (pre & k & post & Hall & Hk & Hpre).
    exists pre, k, post. split; [exact Hall|]. split; [exact Hk|].
    split; [exact Hpre|].
    assert (Hin : k ∈ accepted (s_params spec)).
    { unfold accepted. rewrite Hall. apply fold_keep_first.
      - cbn [map]. apply not_elem_of_nil.
      - change (e_ident k ∉ map e_ident pre). rewrite Hk. exact Hpre. }
    split; [exact Hin|].
    intros k' Hk' Hid.
    apply (NoDup_ident_inj (accepted (s_params spec)));
      auto using accepted_NoDup.
    change (e_ident k' = e_ident k). change (e_ident k' = e_ident e) in Hid.
    change (e_ident k = e_ident e) in Hk. congruence.
Qed.

Lemma first_occurrence_wins_witness :
  render_parts sphere_spec "Shapes" = Ok sphere_parts /\
  assignments sphere_parts =
    [ "        self.id = id"; "        self.radius = radius";
      "        self.center = center"; "        self.to_world = to_world";
      "        self.bsdf = bsdf" ].
Proof.
  assert (H : render_parts sphere_spec "Shapes" = Ok sphere_parts)
    by (vm_compute; reflexivity).
  split; [exact H|].
  destruct (first_occurrence_wins sphere_spec "Shapes" sphere_parts H)
    as (Ha & _).
  rewrite Ha. vm_compute. reflexivity.
Defined.

(** C2. [render_class] raises on a section of a shape category none of
    whose rows yields an entry: here a section with no row at all. *)
Example render_class_empty_shape_raises :
  render_class empty_spec "Shapes" = Raise (UnboundLocalError "raw_name").
Proof. vm_compute. reflexivity. Qed.

(** C4. For a shape section with one row and no [bsdf] row, the injected
    entry is declared once, but its doc line repeats the last row with
    bracketed markers instead of the fixed description. *)
Example shape_bsdf_doc_line :
  exists parts,
    render_parts disk_spec "Shapes" = Ok parts /\
    fields parts =
      [ "    radius: Optional[float] = None";
        "    bsdf: Optional[Plugin] = None" ] /\
    param_docs parts =
      [ "        - radius (float):  Radius";
        "        - radius (float): [] Radius" ] /\
    "        - bsdf (bsdf): [P] Surface scattering model" ∉ param_docs parts.
Proof.
  eexists. split; [vm_compute; reflexivity|].
  split; [reflexivity|]. split; [reflexivity|].
  cbn [param_docs]. rewrite !elem_of_cons, elem_of_nil.
  intros [H|[H|[]]]; discriminate H.
Qed.

End GeneratorFacts.

(* ===================================================================== *)
(** * Properties of [Transform.to_mi] *)
(* ===================================================================== *)

Section LoopFacts.
Context {A S : Type} (body : S -> A -> result S).

Lemma for_each_app (xs ys : list A) (st : S) :
  for_each body (xs ++ ys) st
  = (st' <- for_each body xs st ;; for_each body ys st').
Proof.
  revert st. induction xs as [|x xs IH]; intros st; cbn [for_each app bind].
  - reflexivity.
  - destruct (body st x) as [st'|e]; cbn [bind]; [apply IH | reflexivity].
Qed.

End LoopFacts.

Section ToMi.
Import Utils.
Context {R T P : Type} (mi : ScalarTransform4f R T).

(** Left-composition of pieces onto a running transform, in list order. *)
Lemma to_mi_from (steps : list (step R)) (cur : T) :
  for_each (to_mi_step mi) steps cur
  = (pieces <- pieces_of mi steps ;;
     Ok (fold_left (fun cur piece => T_matmul mi piece cur) pieces cur)).
Proof.
  revert cur. induction steps as [|s rest IH]; intros cur.
  - reflexivity.
  - cbn [for_each pieces_of]. unfold to_mi_step at 1.
    destruct (piece_of mi s) as [[piece|]|e]; cbn [bind].
    + rewrite IH. destruct (pieces_of mi rest); reflexivity.
    + rewrite IH. destruct (pieces_of mi rest); reflexivity.
    + reflexivity.
Qed.

(** [act m x] is the transform [m] applied to the point [x]. *)
Context (act : T -> P -> P).
Hypothesis act_new : forall x, act (T_new mi) x = x.
Hypothesis act_matmul :
  forall a b x, act (T_matmul mi a b) x = act a (act b x).

Lemma act_composed (pieces : list T) :
  forall (cur : T) (x : P),
    act (fold_left (fun cur piece => T_matmul mi piece cur) pieces cur) x
    = fold_left (fun y piece => act piece y) pieces (act cur x).
Proof.
  induction pieces as [|piece rest IH]; intros cur x; cbn [fold_left].
  - reflexivity.
  - rewrite IH, act_matmul. reflexivity.
Qed.

(** C3. [to_mi] starts from the identity, and each recorded step
    left-composes its own transform onto the running result; so the
    returned transform is the left-composition of the pieces in append
    order, and applied to a point it applies the pieces one after the
    other, the first-appended one first. *)
Theorem to_mi_append_order (t : Transform R) :
  to_mi mi Transform_new = Ok (T_new mi) /\
  (forall s : step R,
      to_mi mi (append_op t s)
      = (cur <- to_mi mi t ;;
         p <- piece_of mi s ;;
         Ok (match p with
             | Some piece => T_matmul mi piece cur
             | None => cur
             end))) /\
  to_mi mi t
  = (pieces <- pieces_of mi (_ops t) ;;
     Ok (fold_left (fun cur piece => T_matmul mi piece cur)
                   pieces (T_new mi))) /\
  forall m : T,
    to_mi mi t = Ok m ->
    exists pieces : list T,
      pieces_of mi (_ops t) = Ok pieces /\
      forall x : P, act m x = fold_left (fun y piece => act piece y) pieces x.
Proof.
  split; [reflexivity|]. split; [|split].
  - intros s. unfold to_mi, append_op. cbn [_ops].
    rewrite for_each_app.
    destruct (for_each (to_mi_step mi) (_ops t) (T_new mi)) as [cur|e];
      cbn [bind for_each]; [|reflexivity].
    unfold to_mi_step. destruct (piece_of mi s) as [[piece|]|e];
      reflexivity.
  - apply to_mi_from.
  - intros m Hm. unfold to_mi in Hm. rewrite to_mi_from in Hm.
    destruct (pieces_of mi (_ops t)) as [pieces|e]; [|discriminate].
    cbn [bind] in Hm. injection Hm as <-.
    exists pieces. split; [reflexivity|].
    intros x. rewrite act_composed, act_new. reflexivity.
Qed.

End ToMi.

Section ExactFacts.
Import Utils Exact Examples.
Local Open Scope Z_scope.

Lemma apply4_identity (v : vec4) : apply4 identity v = v.
Proof.
  destruct v as [[[x y] z] w]. unfold apply4, identity, dot.
  f_equal; [f_equal; [f_equal|]|]; ring.
Qed.

Lemma apply4_matmul (a b : mat4) (v : vec4) :
  apply4 (matmul a b) v = apply4 a (apply4 b v).
Proof.
  destruct a as [[[a0 a1] a2] a3], b as [[[b0 b1] b2] b3].
  destruct a0 as [[[? ?] ?] ?], a1 as [[[? ?] ?] ?],
           a2 as [[[? ?] ?] ?], a3 as [[[? ?] ?] ?].
  destruct b0 as [[[? ?] ?] ?], b1 as [[[? ?] ?] ?],
           b2 as [[[? ?] ?] ?], b3 as [[[? ?] ?] ?].
  destruct v as [[[vx vy] vz] vw].
  unfold apply4, matmul, row_times, col, dot.
  f_equal; [f_equal; [f_equal|]|]; ring.
Qed.

Lemma to_mi_append_order_witness :
  to_mi plain move_then_grow = Ok grow_after_move /\
  apply4 grow_after_move (0, 0, 0, 1) = (2, 0, 0, 1) /\
  apply4 (scaling 2 2 2) (apply4 (translation 1 0 0) (0, 0, 0, 1))
  = (2, 0, 0, 1).
Proof.
  destruct (to_mi_append_order plain apply4 apply4_identity apply4_matmul
                               move_then_grow) as (_ & _ & Hto & Hact).
  assert (Hm : to_mi plain move_then_grow = Ok grow_after_move)
    by (rewrite Hto; vm_compute; reflexivity).
  split; [exact Hm|].
  destruct (Hact grow_after_move Hm) as (pieces & Hp & Hx).
  vm_compute in Hp. injection Hp as <-.
  split; [|vm_compute; reflexivity].
  rewrite Hx. vm_compute. reflexivity.
Defined.

(** C1, as the code has it.  For the recorded steps translate(1,0,0)
    then scale(2,2,2), [to_mi] returns the scaling composed onto the
    translation: the translation, appended first, is applied first, and
    the local point (0,0,0) goes to the world point (2,0,0). *)
Theorem translate_then_scale_origin
        (rot : mat4 -> list Z -> Z -> result mat4)
        (look : mat4 -> list Z -> list Z -> list Z -> result mat4)
        (t : Transform Z) :
  _ops t = [ Translate [Some 1; Some 0; Some 0];
             Scale [Some 2; Some 2; Some 2] ] ->
  exists m : mat4,
    to_mi (exact rot look) t = Ok m /\
    m = matmul (scaling 2 2 2) (translation 1 0 0) /\
    transform_affine m (0, 0, 0) = (2, 0, 0) /\
    forall x y z : Z,
      transform_affine m (x, y, z) = (2 * (x + 1), 2 * y, 2 * z).
Proof.
  intros Hops. exists (matmul (scaling 2 2 2) (translation 1 0 0)).
  split; [unfold to_mi; rewrite Hops; vm_compute; reflexivity|].
  split; [reflexivity|]. split; [vm_compute; reflexivity|].
  intros x y z. unfold transform_affine, apply4, matmul, row_times, col, dot,
    scaling, translation.
  f_equal; [f_equal|]; ring.
Qed.

Lemma translate_then_scale_origin_witness :
  _ops move_then_grow = [ Translate [Some 1; Some 0; Some 0];
                          Scale [Some 2; Some 2; Some 2] ] /\
  exists m : mat4,
    to_mi plain move_then_grow = Ok m /\
    transform_affine m (0, 0, 0) = (2, 0, 0).
Proof.
  split; [reflexivity|].
  destruct (translate_then_scale_origin
              (fun _ _ _ => Raise NativeError)
              (fun _ _ _ _ => Raise NativeError)
              move_then_grow eq_refl) as (m & Hm & _ & Ho & _).
  exists m. split; [exact Hm | exact Ho].
Defined.

(** C1 as stated fails: the origin is not sent to (1,0,0). *)
Lemma translate_then_scale_not_1_0_0 :
  ~ (forall (rot : mat4 -> list Z -> Z -> result mat4)
            (look : mat4 -> list Z -> list Z -> list Z -> result mat4)
            (t : Transform Z),
        _ops t = [ Translate [Some 1; Some 0; Some 0];
                   Scale [Some 2; Some 2; Some 2] ] ->
        forall m : mat4,
          to_mi (exact rot look) t = Ok m ->
          transform_affine m (0, 0, 0) = (1, 0, 0)).
Proof.
  intros H.
  specialize (H (fun _ _ _ => Raise NativeError)
                (fun _ _ _ _ => Raise NativeError)
                move_then_grow eq_refl grow_after_move eq_refl).
  vm_compute in H. discriminate H.
Qed.

End ExactFacts.

(* ===================================================================== *)
(** * Properties of [Scene] and [SceneBuilder] *)
(* ===================================================================== *)

Section DictFacts.
Import Dict.
Context {V : Type}.

Lemma dict_get_set_eq (k : string) (v : V) (d : dict V) :
  dict_get k (dict_set k v d) = Some v.
Proof.
  induction d as [|[k' v'] d IH]; cbn [dict_set dict_get].
  - rewrite bool_decide_eq_true_2; reflexivity.
  - case_bool_decide as Hk; cbn [dict_get].
    + rewrite bool_decide_eq_true_2; reflexivity.
    + rewrite (bool_decide_eq_false_2 _ Hk). exact IH.
Qed.

Lemma dict_get_set_ne (k k' : string) (v : V) (d : dict V) :
  k <> k' -> dict_get k (dict_set k' v d) = dict_get k d.
Proof.
  intros Hne. induction d as [|[k0 v0] d IH]; cbn [dict_set dict_get].
  - rewrite bool_decide_eq_false_2; [reflexivity | congruence].
  - case_bool_decide as Hk; cbn [dict_get].
    + subst k0. rewrite !bool_decide_eq_false_2; [reflexivity | congruence..].
    + rewrite IH. reflexivity.
Qed.

Lemma dict_get_in_keys (k : string) (v : V) (d : dict V) :
  dict_get k d = Some v -> k ∈ keys d.
Proof.
  induction d as [|[k0 v0] d IH]; cbn [dict_get keys map fst].
  - discriminate.
  - case_bool_decide as Hk.
    + intros _. subst. apply elem_of_cons. left. reflexivity.
    + intros H. apply elem_of_cons. right. apply IH, H.
Qed.

(** Assigning to a key the dict already has keeps the keys as they are. *)
Lemma keys_set_present (k : string) (v : V) (d : dict V) :
  k ∈ keys d -> keys (dict_set k v d) = keys d.
Proof.
  induction d as [|[k0 v0] d IH]; cbn [dict_set keys map fst].
  - intros H. apply elem_of_nil in H. contradiction.
  - intros H. case_bool_decide as Hk; cbn [map fst].
    + subst. reflexivity.
    + apply elem_of_cons in H. destruct H as [H|H]; [congruence|].
      f_equal. apply IH, H.
Qed.

End DictFacts.

Section SceneFacts.
Import PyStr Dict Utils SceneModel.
Context {R T : Type} (mi : ScalarTransform4f R T).

Lemma put_get_eq (d d' : dict (value R T)) (k : string) (p : Plugin R T) :
  put mi d k p = Ok d' ->
  exists v, serialize mi (VPlugin p) = Ok v /\ d' = dict_set k v d.
Proof.
  unfold put. destruct (serialize mi (VPlugin p)) as [v|e]; cbn [bind];
    [|discriminate].
  intros [= <-]. eauto.
Qed.

Lemma put_all_other (group : dict (Plugin R T)) (k : string) :
  k ∉ keys group ->
  forall d d' : dict (value R T),
    put_all mi group d = Ok d' -> dict_get k d' = dict_get k d.
Proof.
  unfold put_all.
  induction group as [|[k0 p0] group IH]; intros Hk d d' H;
    cbn [for_each fst snd] in H.
  - injection H as <-. reflexivity.
  - cbn [keys map fst] in Hk. apply not_elem_of_cons in Hk.
    destruct Hk as [Hne Hk].
    destruct (put mi d k0 p0) as [d1|e] eqn:Hput; cbn [bind] in H;
      [|discriminate].
    apply put_get_eq in Hput. destruct Hput as (v & _ & ->).
    rewrite (IH Hk _ _ H). apply dict_get_set_ne. exact Hne.
Qed.

(** The entries written after the sensor entries leave every other key
    as it was. *)
Lemma groups_other (self : Scene R T) (k : string)
      (d0 d : dict (value R T)) :
  k ∉ group_keys self -> k <> "id" ->
  (d1 <- put_all mi (shapes self) d0 ;;
   d2 <- put_all mi (emitters self) d1 ;;
   d3 <- put_all mi (media self) d2 ;;
   d4 <- put_all mi (assets self) d3 ;;
   Ok (match scene_id self with
       | Some i => dict_set "id" (VStr i) d4
       | None => d4
       end)) = Ok d ->
  dict_get k d = dict_get k d0.
Proof.
  unfold group_keys. rewrite !not_elem_of_app.
  intros (Hs & He & Hm & Ha) Hid H.
  destruct (put_all mi (shapes self) d0) as [d1|] eqn:H1; [|discriminate].
  cbn [bind] in H.
  destruct (put_all mi (emitters self) d1) as [d2|] eqn:H2; [|discriminate].
  cbn [bind] in H.
  destruct (put_all mi (media self) d2) as [d3|] eqn:H3; [|discriminate].
  cbn [bind] in H.
  destruct (put_all mi (assets self) d3) as [d4|] eqn:H4; [|discriminate].
  cbn [bind] in H. injection H as <-.
  rewrite <- (put_all_other _ _ Hs _ _ H1), <- (put_all_other _ _ He _ _ H2),
    <- (put_all_other _ _ Hm _ _ H3), <- (put_all_other _ _ Ha _ _ H4).
  destruct (scene_id self); [apply dict_get_set_ne; exact Hid | reflexivity].
Qed.

(** C8, as the code has it.  When [to_dict] returns: with exactly one
    sensor, the entry "sensor" is the serialization of that sensor unless a
    shape, emitter, medium or asset is stored under the name "sensor"; with
    two sensors, "sensor_0" and "sensor_1" are the serializations of the
    first and the second sensor unless such a name is used by one of those
    groups, and there is no entry "sensor" unless one of them has that
    name. *)
Theorem sensor_entries (self : Scene R T) (d : dict (value R T)) :
  to_dict mi self = Ok d ->
  (forall s : Plugin R T,
      sensors self = [s] ->
      exists v,
        serialize mi (VPlugin s) = Ok v /\
        ("sensor" ∉ group_keys self -> dict_get "sensor" d = Some v)) /\
  (forall s0 s1 : Plugin R T,
      sensors self = [s0; s1] ->
      exists v0 v1,
        serialize mi (VPlugin s0) = Ok v0 /\
        serialize mi (VPlugin s1) = Ok v1 /\
        ("sensor_0" ∉ group_keys self -> dict_get "sensor_0" d = Some v0) /\
        ("sensor_1" ∉ group_keys self -> dict_get "sensor_1" d = Some v1) /\
        ("sensor" ∉ group_keys self -> dict_get "sensor" d = None)).
Proof.
  intros H. unfold to_dict in H.
  set (d0 := [("type", VStr "scene")]) in H.
  destruct (match integrator self with
            | Some p => put mi d0 "integrator" p
            | None => Ok d0
            end) as [d1|] eqn:Hint; [|discriminate].
  cbn [bind] in H.
  assert (Hd1 : forall k, k <> "type" -> k <> "integrator" ->
                          dict_get k d1 = None).
  { intros k Ht Hi. destruct (integrator self) as [p|].
    - apply put_get_eq in Hint. destruct Hint as (v & _ & ->).
      rewrite dict_get_set_ne by exact Hi. unfold d0. cbn [dict_get].
      rewrite bool_decide_eq_false_2; [reflexivity | congruence].
    - injection Hint as <-. unfold d0. cbn [dict_get].
      rewrite bool_decide_eq_false_2; [reflexivity | congruence]. }
  split.
  - intros s Hs. rewrite Hs in H.
    destruct (put mi d1 "sensor" s) as [d2|] eqn:Hput; [|discriminate].
    cbn [bind] in H. apply put_get_eq in Hput.
    destruct Hput as (v & Hv & ->). exists v. split; [exact Hv|].
    intros Hk. rewrite (groups_other _ _ _ _ Hk ltac:(discriminate) H).
    apply dict_get_set_eq.
  - intros s0 s1 Hs. rewrite Hs in H. cbn [enumerate length seq combine
      for_each fst snd] in H.
    destruct (put mi d1 _ s0) as [d2|] eqn:Hp0; [|discriminate].
    cbn [bind] in H.
    destruct (put mi d2 _ s1) as [d3|] eqn:Hp1; [|discriminate].
    cbn [bind] in H.
    apply put_get_eq in Hp0. destruct Hp0 as (v0 & Hv0 & ->).
    apply put_get_eq in Hp1. destruct Hp1 as (v1 & Hv1 & ->).
    exists v0, v1. split; [exact Hv0|]. split; [exact Hv1|].
    change ("sensor_" +:+ of_nat 0) with "sensor_0" in H.
    change ("sensor_" +:+ of_nat 1) with "sensor_1" in H.
    split; [|split]; intros Hk;
      rewrite (groups_other _ _ _ _ Hk ltac:(discriminate) H).
    + rewrite dict_get_set_ne by discriminate. apply dict_get_set_eq.
    + apply dict_get_set_eq.
    + rewrite !dict_get_set_ne by discriminate.
      apply Hd1; discriminate.
Qed.

(** C7. An asset without identifier gets "asset_" followed by the number
    of assets plus one, counted when it is added; so on a scene, and on a
    builder, without assets, three assets without identifier get
    "asset_1", "asset_2" and "asset_3" in the order they are added, and are
    stored under these keys in that order. *)
Theorem asset_auto_naming (self : Scene R T) (builder : SceneBuilder R T)
        (p1 p2 p3 : Plugin R T) :
  assets self = [] -> _assets builder = [] ->
  pid p1 = None -> pid p2 = None -> pid p3 = None ->
  (forall (sc : Scene R T) (p : Plugin R T),
      pid p = None ->
      pid (snd (fst (add_asset sc p)))
      = Some ("asset_" +:+ of_nat (dict_len (assets sc) + 1))) /\
  (forall (b : SceneBuilder R T) (p : Plugin R T),
      pid p = None ->
      pid (snd (b_asset b p))
      = Some ("asset_" +:+ of_nat (dict_len (_assets b) + 1))) /\
  (let '(sc1, q1, r1) := add_asset self p1 in
   let '(sc2, q2, r2) := add_asset sc1 p2 in
   let '(sc3, q3, r3) := add_asset sc2 p3 in
   pid q1 = Some "asset_1" /\ pid q2 = Some "asset_2" /\
   pid q3 = Some "asset_3" /\
   r1 = Ref "asset_1" /\ r2 = Ref "asset_2" /\ r3 = Ref "asset_3" /\
   assets sc3 = [("asset_1", q1); ("asset_2", q2); ("asset_3", q3)]) /\
  (let '(b1, q1) := b_asset builder p1 in
   let '(b2, q2) := b_asset b1 p2 in
   let '(b3, q3) := b_asset b2 p3 in
   pid q1 = Some "asset_1" /\ pid q2 = Some "asset_2" /\
   pid q3 = Some "asset_3" /\
   _assets b3 = [("asset_1", q1); ("asset_2", q2); ("asset_3", q3)] /\
   assets (build b3) = _assets b3).
Proof.
  intros Ha Hb H1 H2 H3.
  split; [|split; [|split]].
  - intros sc p Hp. unfold add_asset. rewrite Hp. reflexivity.
  - intros b p Hp. unfold b_asset. rewrite Hp. reflexivity.
  - unfold add_asset. cbn [assets]. rewrite Ha, H1, H2, H3.
    cbn [pid set_id]. repeat split; reflexivity.
  - unfold b_asset. cbn [_assets]. rewrite Hb, H1, H2, H3.
    cbn [pid set_id]. repeat split; reflexivity.
Qed.

(** C10. When the assets already hold a plugin under the identifier that
    auto-naming computes next, adding a plugin without identifier gives the
    new plugin that identifier and stores it under the existing key: the
    keys and their number stay as they were, the key now holds the new
    plugin, and the returned reference carries that identifier. *)
Theorem auto_name_overwrites (self : Scene R T) (builder : SceneBuilder R T)
        (p old old' : Plugin R T) :
  pid p = None ->
  dict_get (auto_id (assets self)) (assets self) = Some old ->
  dict_get (auto_id (_assets builder)) (_assets builder) = Some old' ->
  (let '(self', p', ref) := add_asset self p in
   p' = set_id p (auto_id (assets self)) /\
   pid p' = Some (auto_id (assets self)) /\
   dict_get (auto_id (assets self)) (assets self') = Some p' /\
   keys (assets self') = keys (assets self) /\
   dict_len (assets self') = dict_len (assets self) /\
   ref = Ref (auto_id (assets self))) /\
  (let '(builder', p') := b_asset builder p in
   p' = set_id p (auto_id (_assets builder)) /\
   pid p' = Some (auto_id (_assets builder)) /\
   dict_get (auto_id (_assets builder)) (_assets builder') = Some p' /\
   keys (_assets builder') = keys (_assets builder) /\
   dict_len (_assets builder') = dict_len (_assets builder)).
Proof.
  intros Hp Hold Hold'.
  assert (Hlen : forall (k : string) (v : Plugin R T) (d : dict (Plugin R T)),
             k ∈ keys d -> dict_len (dict_set k v d) = dict_len d).
  { intros k v d Hk. unfold dict_len.
    rewrite <- (length_map fst (dict_set k v d)), <- (length_map fst d).
    change (map fst ?x) with (keys x). rewrite keys_set_present; auto. }
  apply dict_get_in_keys in Hold, Hold'.
  split.
  - unfold add_asset. rewrite Hp. cbn [pid set_id assets].
    repeat split.
    + apply dict_get_set_eq.
    + apply keys_set_present, Hold.
    + apply Hlen, Hold.
  - unfold b_asset. rewrite Hp. cbn [pid set_id _assets].
    repeat split.
    + apply dict_get_set_eq.
    + apply keys_set_present, Hold'.
    + apply Hlen, Hold'.
Qed.

End SceneFacts.

Section SceneExamples.
Import PyStr Dict Utils SceneModel Exact Examples.

Lemma sensor_entries_witness :
  to_dict plain one_sensor_scene = Ok one_sensor_dict /\
  Ok <$> dict_get "sensor" one_sensor_dict
  = Some (serialize plain (VPlugin camera)) /\
  to_dict plain two_sensors_scene = Ok two_sensors_dict /\
  Ok <$> dict_get "sensor_0" two_sensors_dict
  = Some (serialize plain (VPlugin camera)) /\
  Ok <$> dict_get "sensor_1" two_sensors_dict
  = Some (serialize plain (VPlugin second_camera)) /\
  dict_get "sensor" two_sensors_dict = None.
Proof.
  assert (H1 : to_dict plain one_sensor_scene = Ok one_sensor_dict)
    by (vm_compute; reflexivity).
  assert (H2 : to_dict plain two_sensors_scene = Ok two_sensors_dict)
    by (vm_compute; reflexivity).
  destruct (sensor_entries plain one_sensor_scene one_sensor_dict H1)
    as [Hone _].
  destruct (sensor_entries plain two_sensors_scene two_sensors_dict H2)
    as [_ Htwo].
  destruct (Hone camera eq_refl) as (v & Hv & Hget).
  destruct (Htwo camera second_camera eq_refl)
    as (v0 & v1 & Hv0 & Hv1 & Hg0 & Hg1 & Hnone).
  split; [exact H1|]. split.
  { rewrite Hget by compute_done. rewrite Hv. reflexivity. }
  split; [exact H2|]. split.
  { rewrite Hg0 by compute_done. rewrite Hv0. reflexivity. }
  split.
  { rewrite Hg1 by compute_done. rewrite Hv1. reflexivity. }
  apply Hnone. compute_done.
Defined.

(** C8 as stated fails: a shape stored under the name "sensor" takes the
    place of the single sensor's entry, and puts an entry "sensor" into
    the mapping of a scene with two sensors. *)
Lemma sensor_entry_overwritten :
  ~ (forall (self : Scene Z mat4) (s : Plugin Z mat4)
            (d : dict (value Z mat4)),
        sensors self = [s] ->
        to_dict plain self = Ok d ->
        Ok <$> dict_get "sensor" d = Some (serialize plain (VPlugin s))) /\
  ~ (forall (self : Scene Z mat4) (s0 s1 : Plugin Z mat4)
            (d : dict (value Z mat4)),
        sensors self = [s0; s1] ->
        to_dict plain self = Ok d ->
        dict_get "sensor" d = None).
Proof.
  split; intros H.
  - specialize (H one_sensor_clash camera _ eq_refl eq_refl).
    vm_compute in H. discriminate H.
  - specialize (H two_sensors_clash camera second_camera _ eq_refl eq_refl).
    vm_compute in H. discriminate H.
Qed.

Lemma asset_auto_naming_witness :
  assets (fst (fst (add_asset
    (fst (fst (add_asset (fst (fst (add_asset empty_scene red))) blue)))
    green)))
  = [ ("asset_1", set_id red "asset_1"); ("asset_2", set_id blue "asset_2");
      ("asset_3", set_id green "asset_3") ] /\
  _assets (fst (b_asset
    (fst (b_asset (fst (b_asset SceneBuilder_init red)) blue)) green))
  = [ ("asset_1", set_id red "asset_1"); ("asset_2", set_id blue "asset_2");
      ("asset_3", set_id green "asset_3") ].
Proof.
  destruct (asset_auto_naming empty_scene SceneBuilder_init red blue green
                              eq_refl eq_refl eq_refl eq_refl eq_refl)
    as (_ & _ & Hs & Hb).
  destruct (add_asset empty_scene red) as [[sc1 q1] r1] eqn:E1.
  destruct (add_asset sc1 blue) as [[sc2 q2] r2] eqn:E2.
  destruct (add_asset sc2 green) as [[sc3 q3] r3] eqn:E3.
  destruct (b_asset SceneBuilder_init red) as [b1 c1] eqn:F1.
  destruct (b_asset b1 blue) as [b2 c2] eqn:F2.
  destruct (b_asset b2 green) as [b3 c3] eqn:F3.
  cbn [fst].
  destruct Hs as (_ & _ & _ & _ & _ & _ & Hs).
  destruct Hb as (_ & _ & _ & Hb & _).
  vm_compute in E1. injection E1 as <- <- <-.
  vm_compute in E2. injection E2 as <- <- <-.
  vm_compute in E3. injection E3 as <- <- <-.
  vm_compute in F1. injection F1 as <- <-.
  vm_compute in F2. injection F2 as <- <-.
  vm_compute in F3. injection F3 as <- <-.
  split; [exact Hs | exact Hb].
Defined.

Lemma auto_name_overwrites_witness :
  dict_get "asset_2" (assets scene_with_asset_2)
  = Some (set_id red "asset_2") /\
  pid blue = None /\
  dict_get "asset_2" (assets (fst (fst (add_asset scene_with_asset_2 blue))))
  = Some (set_id blue "asset_2") /\
  set_id blue "asset_2" <> set_id red "asset_2" /\
  snd (add_asset scene_with_asset_2 blue) = Ref "asset_2" /\
  dict_get "asset_2" (_assets (fst (b_asset builder_with_asset_2 blue)))
  = Some (set_id blue "asset_2").
Proof.
  destruct (auto_name_overwrites scene_with_asset_2 builder_with_asset_2
              blue (set_id red "asset_2") (set_id red "asset_2")
              eq_refl eq_refl eq_refl) as [Hs Hb].
  destruct (add_asset scene_with_asset_2 blue) as [[sc' p'] ref].
  destruct (b_asset builder_with_asset_2 blue) as [b' q'].
  destruct Hs as (-> & _ & Hget & _ & _ & ->).
  destruct Hb as (-> & _ & Hget' & _).
  cbn [fst snd].
  split; [reflexivity|]. split; [reflexivity|].
  split; [exact Hget|]. split; [discriminate|].
  split; [reflexivity | exact Hget'].
Defined.

End SceneExamples.

(* ===================================================================== *)
(** * Further properties *)
(* ===================================================================== *)

Section StringFacts.
Import PyStr Notions.

Lemma chars_inj (a b : string) : chars a = chars b -> a = b.
Proof.
  intros H. rewrite <- (string_of_list_ascii_of_string a),
    <- (string_of_list_ascii_of_string b). unfold chars in H. congruence.
Qed.

Lemma append_cons (c : ascii) (a b : string) :
  String c a +:+ b = String c (a +:+ b).
Proof. reflexivity. Qed.

Lemma chars_app (a b : string) : chars (a +:+ b) = chars a ++ chars b.
Proof.
  unfold chars. induction a as [|c a IH]; [reflexivity|].
  rewrite append_cons. cbn. f_equal. exact IH.
Qed.

Lemma chars_rev_onto (s acc : string) :
  chars (rev_onto s acc) = List.rev (chars s) ++ chars acc.
Proof.
  unfold chars. revert acc. induction s as [|c s IH]; intros acc; cbn.
  - reflexivity.
  - rewrite IH. cbn. rewrite <- app_assoc. reflexivity.
Qed.

Lemma chars_rev (s : string) : chars (rev s) = List.rev (chars s).
Proof. unfold rev. rewrite chars_rev_onto. apply app_nil_r. Qed.

Lemma chars_lstrip (d : ascii -> bool) (s : string) :
  chars (lstrip_by d s) = dropw d (chars s).
Proof.
  unfold chars. induction s as [|c s IH]; cbn; [reflexivity|].
  destruct (d c); [exact IH | reflexivity].
Qed.

Lemma chars_strip (d : ascii -> bool) (s : string) :
  chars (strip_by d s) = trim d (chars s).
Proof.
  unfold strip_by, rstrip_by, trim.
  rewrite chars_rev, chars_lstrip, chars_rev, chars_lstrip. reflexivity.
Qed.

Lemma chars_map (f : ascii -> ascii) (s : string) :
  chars (map_chars f s) = map f (chars s).
Proof.
  unfold chars. induction s as [|c s IH]; cbn; [reflexivity | f_equal; exact IH].
Qed.

Lemma dropw_suffix (d : ascii -> bool) (l : list ascii) :
  exists pre, l = pre ++ dropw d l.
Proof.
  induction l as [|c l IH]; cbn.
  - exists []. reflexivity.
  - destruct (d c).
    + destruct IH as [pre IH]. exists (c :: pre). cbn. f_equal. exact IH.
    + exists []. reflexivity.
Qed.

Lemma dropw_head (d : ascii -> bool) (l : list ascii) (c : ascii)
      (r : list ascii) :
  dropw d l = c :: r -> d c = false.
Proof.
  induction l as [|x l IH]; cbn; [discriminate|].
  destruct (d x) eqn:E; [exact IH|]. intros [= <- _]. exact E.
Qed.

Lemma dropw_keep (d : ascii -> bool) (c : ascii) (r : list ascii) :
  d c = false -> dropw d (c :: r) = c :: r.
Proof. intros H. cbn. rewrite H. reflexivity. Qed.

Lemma dropw_Forall (P : ascii -> Prop) (d : ascii -> bool) (l : list ascii) :
  Forall P l -> Forall P (dropw d l).
Proof.
  intros H. destruct (dropw_suffix d l) as [pre E]. rewrite E in H.
  apply Forall_app in H. tauto.
Qed.

Lemma trim_Forall (P : ascii -> Prop) (d : ascii -> bool) (l : list ascii) :
  Forall P l -> Forall P (trim d l).
Proof.
  intros H. unfold trim.
  apply Forall_rev, dropw_Forall, Forall_rev, dropw_Forall, H.
Qed.

(** The trimmed list starts and ends with a character that is kept. *)
Lemma trim_ends (d : ascii -> bool) (l : list ascii) :
  trim d l = [] \/
  exists a mid b,
    d a = false /\ d b = false /\
    (trim d l = [a] /\ a = b \/ trim d l = a :: mid ++ [b]).
Proof.
  unfold trim.
  destruct (dropw d l) as [|a m] eqn:Hm; [left; reflexivity|].
  pose proof (dropw_head _ _ _ _ Hm) as Ha.
  destruct (dropw d (List.rev (a :: m))) as [|b n] eqn:Hn.
  { exfalso. cbn [List.rev] in Hn.
    destruct (dropw_suffix d (List.rev m ++ [a])) as [pre E].
    rewrite Hn, app_nil_r in E.
    assert (Hd : Forall (fun c => d c = true) (List.rev m ++ [a])).
    { clear -Hn. revert Hn. generalize (List.rev m ++ [a]).
      induction l as [|c l IH]; cbn; [constructor|].
      destruct (d c) eqn:E; [|discriminate]. intros H. constructor; auto. }
    apply Forall_app in Hd. destruct Hd as [_ Hd].
    apply Forall_inv in Hd. congruence. }
  pose proof (dropw_head _ _ _ _ Hn) as Hb.
  right.
  destruct (dropw_suffix d (List.rev (a :: m))) as [pre E].
  rewrite Hn in E.
  assert (E' : a :: m = List.rev n ++ [b] ++ List.rev pre).
  { rewrite <- (rev_involutive (a :: m)), E, rev_app_distr. cbn [List.rev].
    rewrite <- app_assoc. reflexivity. }
  cbn [List.rev].
  destruct (List.rev n) as [|a' n'] eqn:Hrn.
  - cbn in E'. injection E' as -> _. exists b, [], b. auto.
  - cbn in E'. injection E' as -> _. exists a', n', b. auto.
Qed.

Lemma dropw_rev_snoc (d : ascii -> bool) (b : ascii) (l : list ascii) :
  d b = false -> dropw d (List.rev (l ++ [b])) = List.rev (l ++ [b]).
Proof. intros H. rewrite rev_app_distr. cbn. rewrite H. reflexivity. Qed.

Lemma trim_idem (d : ascii -> bool) (l : list ascii) :
  trim d (trim d l) = trim d l.
Proof.
  destruct (trim_ends d l) as [E|(a & mid & b & Ha & Hb & [[E _]|E])];
    rewrite E; unfold trim.
  - reflexivity.
  - cbn. rewrite Ha. cbn. rewrite Ha. reflexivity.
  - rewrite (dropw_keep _ _ _ Ha).
    change (a :: mid ++ [b]) with ((a :: mid) ++ [b]).
    rewrite (dropw_rev_snoc _ _ _ Hb). apply rev_involutive.
Qed.

Lemma strip_by_idem (d : ascii -> bool) (s : string) :
  strip_by d (strip_by d s) = strip_by d s.
Proof. apply chars_inj. rewrite !chars_strip. apply trim_idem. Qed.

Lemma pystr_rev_rev (s : string) : rev (rev s) = s.
Proof. apply chars_inj. rewrite !chars_rev. apply rev_involutive. Qed.

Lemma dropw_snoc_keep (d : ascii -> bool) (l : list ascii) (a : ascii) :
  d a = false -> dropw d (l ++ [a]) = dropw d l ++ [a].
Proof.
  intros H. induction l as [|c l IH]; cbn.
  - rewrite H. reflexivity.
  - destruct (d c); [exact IH | reflexivity].
Qed.

Lemma trim_cons_keep (d : ascii -> bool) (a : ascii) (m : list ascii) :
  d a = false -> trim d (a :: m) = a :: List.rev (dropw d (List.rev m)).
Proof.
  intros H. unfold trim. rewrite (dropw_keep _ _ _ H). cbn [List.rev].
  rewrite (dropw_snoc_keep _ _ _ H), rev_app_distr. reflexivity.
Qed.

Lemma trim_cons_drop (d : ascii -> bool) (a : ascii) (m : list ascii) :
  d a = true -> trim d (a :: m) = trim d m.
Proof. intros H. unfold trim. cbn [dropw]. rewrite H. reflexivity. Qed.

(** *** Character classes *)


Lemma lower_char_ident (c : ascii) :
  is_word c = true -> ident_char (lower_char c) = true.
Proof. each_ascii c. Qed.

Lemma lower_char_fixed (c : ascii) :
  ident_char c = true -> lower_char c = c.
Proof. each_ascii c. Qed.

Lemma ident_char_word (c : ascii) : ident_char c = true -> is_word c = true.
Proof. each_ascii c. Qed.

Lemma digit_not_underscore (c : ascii) :
  is_digit c = true -> (code c =? 95) = false.
Proof.
  destruct c as [[] [] [] [] [] [] [] []]; intros H;
    try reflexivity; discriminate H.
Qed.

Lemma code_inj (a b : ascii) : (code a =? code b) = true -> a = b.
Proof.
  intros H. apply Nat.eqb_eq in H. unfold code in H.
  rewrite <- (ascii_nat_embedding a), <- (ascii_nat_embedding b). congruence.
Qed.

Lemma code_refl (a : ascii) : (code a =? code a) = true.
Proof. apply Nat.eqb_refl. Qed.

End StringFacts.

Section SplitNamesFacts.
Import PyStr Re Generator Notions.

Lemma split_go_no_sep (sep : ascii) (s : string) :
  forall cur,
    Forall (fun c => (code c =? code sep) = false) (chars cur) ->
    Forall (fun x => Forall (fun c => (code c =? code sep) = false) (chars x))
           (split_go sep s cur).
Proof.
  induction s as [|c s IH]; intros cur Hcur; cbn [split_go].
  - constructor; [|constructor]. rewrite chars_rev. apply Forall_rev, Hcur.
  - destruct (code c =? code sep) eqn:E.
    + constructor.
      * rewrite chars_rev. apply Forall_rev, Hcur.
      * apply IH. constructor.
    + apply IH. constructor; assumption.
Qed.

Lemma split_go_whole (sep : ascii) (s : string) :
  Forall (fun c => (code c =? code sep) = false) (chars s) ->
  forall cur, split_go sep s cur = [rev (rev_onto s cur)].
Proof.
  induction s as [|c s IH]; intros H cur; cbn [split_go rev_onto].
  - reflexivity.
  - apply Forall_cons in H. destruct H as [Hc Hs].
    rewrite Hc. apply IH, Hs.
Qed.

Lemma split_whole (sep : ascii) (s : string) :
  Forall (fun c => (code c =? code sep) = false) (chars s) ->
  split sep s = [s].
Proof.
  intros H. unfold split. rewrite (split_go_whole _ _ H).
  change (rev_onto s EmptyString) with (rev s). rewrite pystr_rev_rev. reflexivity.
Qed.

Lemma split_names_plain (x : string) : plain_name x -> split_names x = [x].
Proof.
  intros (Hne & Hs & Hc). unfold split_names.
  rewrite (split_whole _ _ Hc). cbn [map]. rewrite Hs. cbn [List.filter].
  unfold eqb. rewrite bool_decide_eq_false_2 by exact Hne. reflexivity.
Qed.

Lemma split_names_parts (name : string) :
  Forall plain_name
         (List.filter (fun p => negb (eqb p EmptyString))
                      (map strip (split ","%char name))).
Proof.
  apply Forall_forall. intros x Hx. apply list_elem_of_In in Hx.
  apply filter_In in Hx. destruct Hx as [Hin Hne].
  apply in_map_iff in Hin. destruct Hin as (y & <- & Hy).
  split; [|split].
  - unfold eqb in Hne. apply negb_true_iff, bool_decide_eq_false in Hne.
    exact Hne.
  - apply strip_by_idem.
  - unfold no_comma, strip. rewrite chars_strip. apply trim_Forall.
    pose proof (split_go_no_sep ","%char name EmptyString (Forall_nil_2 _)) as H.
    rewrite Forall_forall in H. apply H. apply list_elem_of_In. exact Hy.
Qed.

Lemma split_names_nonempty (name : string) : split_names name <> [].
Proof. unfold split_names. destruct (List.filter _ _); discriminate. Qed.

(** [split_names] never returns an empty list: it returns either the
    name itself or its comma-separated parts, each of them not empty,
    stripped and without comma; a name of that form is returned alone,
    and splitting the aliases again changes nothing. *)
Theorem split_names_aliases (name : string) :
  split_names name <> [] /\
  (split_names name = [name] \/ Forall plain_name (split_names name)) /\
  (plain_name name -> split_names name = [name]) /\
  flat_map split_names (split_names name) = split_names name.
Proof.
  pose proof (split_names_parts name) as Hparts.
  assert (Hcases : split_names name = [name] \/
                   Forall plain_name (split_names name)).
  { unfold split_names.
    destruct (List.filter _ _) as [|x l]; [left; reflexivity | right; exact Hparts]. }
  split; [|split; [exact Hcases|split; [apply split_names_plain|]]].
  - apply split_names_nonempty.
  - destruct Hcases as [E|H].
    + rewrite E. cbn [flat_map]. rewrite E. reflexivity.
    + induction H as [|x l Hx Hl IH]; [reflexivity|].
      cbn [flat_map]. rewrite (split_names_plain _ Hx), IH. reflexivity.
Qed.

End SplitNamesFacts.

Section NormalizeFacts.
Import PyStr Re Generator Notions.

Lemma sub_nonword_word (name : string) :
  Forall (fun c => is_word c = true) (chars (sub_nonword name)).
Proof.
  assert (Hb : Forall (fun c => is_word c = true)
                 (chars (map_chars (fun c => if is_word c then c else "_"%char)
                                   name))).
  { rewrite chars_map. apply Forall_forall. intros c Hc.
    apply list_elem_of_In, in_map_iff in Hc. destruct Hc as (x & <- & _).
    destruct (is_word x) eqn:E; [exact E | reflexivity]. }
  unfold sub_nonword. destruct name as [|c r]; [exact Hb|].
  destruct (is_digit c); [|exact Hb].
  constructor; [reflexivity | exact Hb].
Qed.

Lemma stem_ident (name : string) :
  Forall (fun c => ident_char c = true) (chars (stem name)).
Proof.
  unfold stem, strip_char. rewrite chars_strip. apply trim_Forall.
  unfold lower. rewrite chars_map. apply Forall_forall. intros c Hc.
  apply list_elem_of_In, in_map_iff in Hc. destruct Hc as (x & <- & Hx).
  apply lower_char_ident.
  pose proof (sub_nonword_word name) as H. rewrite Forall_forall in H.
  apply H, list_elem_of_In, Hx.
Qed.

Lemma normalize_cases (name : string) :
  (In (stem name) keywords /\ normalize name = stem name +:+ "_") \/
  (stem name = "" /\ normalize name = "param") \/
  (~ In (stem name) keywords /\ stem name <> "" /\
   normalize name = stem name).
Proof.
  unfold normalize. fold (stem name).
  destruct (existsb (eqb (stem name)) keywords) eqn:E.
  - left. apply existsb_exists in E. destruct E as (k & Hk & Hek).
    unfold eqb in Hek. apply bool_decide_eq_true in Hek. subst k.
    split; [exact Hk|].
    unfold eqb. rewrite bool_decide_eq_false_2; [reflexivity|].
    destruct (stem name); discriminate.
  - assert (Hn : ~ In (stem name) keywords).
    { intros Hin. apply not_true_iff_false in E. apply E.
      apply existsb_exists. exists (stem name). split; [exact Hin|].
      unfold eqb. apply bool_decide_eq_true. reflexivity. }
    unfold eqb. case_bool_decide as He; [right; left | right; right]; auto.
Qed.

Lemma map_chars_fixed (f : ascii -> ascii) (s : string) :
  Forall (fun c => f c = c) (chars s) -> map_chars f s = s.
Proof.
  unfold chars. induction s as [|c s IH]; cbn; intros H; [reflexivity|].
  apply Forall_cons in H. destruct H as [Hc Hs].
  rewrite Hc, (IH Hs). reflexivity.
Qed.

Lemma keyword_shape (k : string) :
  In k keywords ->
  normalize (k +:+ "_") = k +:+ "_" /\
  ~ In (k +:+ "_") keywords /\
  Forall (fun c => ident_char c = true) (chars (k +:+ "_")) /\
  exists c rest, k = String c rest /\ is_lower c = true.
Proof.
  intros H. cbn in H.
  destruct H as [<-|[<-|[<-|[<-|[<-|[]]]]]];
    (split; [vm_compute; reflexivity|]);
    (split; [cbn; intros H;
             repeat (destruct H as [H|H]; [discriminate H|]); exact H|]);
    (split; [repeat constructor | eexists _, _; split; reflexivity]).
Qed.

Lemma stem_first (name : string) :
  stem name = "" \/
  exists c rest, stem name = String c rest /\
                 (is_lower c || is_digit c) = true.
Proof.
  pose proof (stem_ident name) as Hid.
  assert (Hch : chars (stem name)
                = trim (fun c => code c =? code "_"%char)
                       (chars (lower (sub_nonword name)))).
  { unfold stem, strip_char. apply chars_strip. }
  destruct (stem name) as [|c rest]; [left; reflexivity|]. right.
  exists c, rest. split; [reflexivity|].
  apply Forall_cons in Hid. destruct Hid as [Hc _].
  assert (Hd : (code c =? code "_"%char) = false).
  { destruct (trim_ends (fun c => code c =? code "_"%char)
                        (chars (lower (sub_nonword name))))
      as [E|(a & mid & b & Ha & _ & [[E _]|E])];
      rewrite <- Hch in E; cbn in E; [discriminate| |];
      injection E as -> _; exact Ha. }
  unfold ident_char in Hc. change (code "_"%char) with 95 in Hd.
  rewrite Hd, orb_false_r in Hc. exact Hc.
Qed.


(** A leading digit survives: the underscore put in front of it is
    stripped again. *)
Theorem normalize_leading_digit (c : ascii) (rest : string) :
  is_digit c = true ->
  exists rest', normalize (String c rest) = String c rest'.
Proof.
  intros Hd.
  assert (Hw : is_word c = true).
  { unfold is_word, is_alnum. rewrite Hd, orb_true_r. reflexivity. }
  assert (Hl : lower_char c = c).
  { apply lower_char_fixed. unfold ident_char. rewrite Hd, orb_true_r.
    reflexivity. }
  assert (Hu : (code c =? code "_"%char) = false).
  { apply digit_not_underscore, Hd. }
  assert (Hs : exists rest', stem (String c rest) = String c rest').
  { assert (Hch : exists l, chars (stem (String c rest)) = c :: l).
    { unfold stem, strip_char. rewrite chars_strip. unfold lower.
      rewrite chars_map. unfold sub_nonword. rewrite Hd.
      unfold chars at 1. cbn [list_ascii_of_string map_chars map].
      rewrite Hw, Hl.
      rewrite trim_cons_drop by reflexivity.
      rewrite trim_cons_keep by exact Hu. eauto. }
    destruct Hch as [l Hl']. destruct (stem (String c rest)) as [|c' r'].
    - discriminate Hl'.
    - injection Hl' as -> _. eauto. }
  destruct Hs as [rest' Hs].
  destruct (normalize_cases (String c rest))
    as [[Hk _]|[[He _]|(_ & _ & ->)]].
  - exfalso. rewrite Hs in Hk. cbn in Hk.
    repeat destruct Hk as [Hk|Hk]; try (injection Hk as <- _; discriminate Hd).
    exact Hk.
  - rewrite Hs in He. discriminate.
  - eauto.
Qed.


End NormalizeFacts.

Section UniqueFacts.
Import PyStr Re Generator Notions.

Lemma of_nat_inj (i j : nat) : of_nat i = of_nat j -> i = j.
Proof.
  unfold of_nat. intros H. apply DecimalNat.Unsigned.to_uint_inj.
  assert (E : Some (Nat.to_uint i) = Some (Nat.to_uint j)).
  { rewrite <- !NilEmpty.usu. rewrite H. reflexivity. }
  congruence.
Qed.

Lemma append_inj_l (a x y : string) : a +:+ x = a +:+ y -> x = y.
Proof.
  induction a as [|c a IH]; [auto|]. rewrite !append_cons.
  intros [= H]. apply IH, H.
Qed.

Lemma candidate_inj (base : string) (i j : nat) :
  candidate base i = candidate base j -> i = j.
Proof.
  unfold candidate. intros H. apply append_inj_l in H.
  apply (append_inj_l "_") in H. apply of_nat_inj, H.
Qed.

Lemma candidate_nonempty (base : string) (i : nat) : candidate base i <> "".
Proof.
  unfold candidate. destruct base as [|c b]; [|rewrite append_cons];
    discriminate.
Qed.

Lemma unique_loop_step (fuel : nat) (sn : gset string) (base name : string)
      (i : nat) :
  unique_loop (S fuel) sn base name i
  = if bool_decide (name ∈ sn) || eqb name ""
    then unique_loop fuel sn base (candidate base i) (S i)
    else Some name.
Proof. reflexivity. Qed.

Lemma unique_loop_finds (sn : gset string) (base : string) :
  forall (fuel : nat) (left : gset string) (k : nat),
    size left < fuel ->
    (forall j, k <= j -> candidate base j ∈ sn -> candidate base j ∈ left) ->
    exists m,
      k <= m /\
      unique_loop fuel sn base (candidate base k) (S k)
      = Some (candidate base m) /\
      (candidate base m ∉ sn) /\
      forall j, k <= j < m -> candidate base j ∈ sn.
Proof.
  induction fuel as [|fuel IH]; intros left k Hsize Hleft; [lia|].
  rewrite unique_loop_step. unfold eqb.
  rewrite (bool_decide_eq_false_2 (candidate base k = ""))
    by apply candidate_nonempty.
  rewrite orb_false_r. case_bool_decide as Hin.
  - assert (Hk : candidate base k ∈ left) by (apply Hleft; [lia | exact Hin]).
    destruct (IH (left ∖ {[candidate base k]}) (S k)) as (m & Hm & Hr & Hf & Hb).
    + assert (Hs : size (left ∖ {[candidate base k]}) = size left - 1).
      { rewrite size_difference by (apply singleton_subseteq_l, Hk).
        rewrite size_singleton. reflexivity. }
      assert (size left <> 0).
      { intros Hz. apply size_empty_inv in Hz.
        apply (not_elem_of_empty (C:=gset string) (candidate base k)).
        rewrite <- Hz. exact Hk. }
      lia.
    + intros j Hj Hjin. apply elem_of_difference. split.
      * apply Hleft; [lia | exact Hjin].
      * intros Heq. apply elem_of_singleton in Heq.
        apply candidate_inj in Heq. lia.
    + exists m. split; [lia|]. split; [exact Hr|]. split; [exact Hf|].
      intros j Hj. destruct (decide (j = k)) as [->|Hne]; [exact Hin|].
      apply Hb. lia.
  - exists k. split; [lia|]. split; [reflexivity|]. split; [exact Hin|].
    intros j Hj. lia.
Qed.

(** [unique] always returns: the name itself when it is non-empty and not
    yet seen, otherwise the candidate [name_i] with the least [i >= 2]
    that is not yet seen; the returned name is non-empty, was not seen,
    and is seen afterwards. *)
Theorem unique_returns_fresh (sn : gset string) (name : string) :
  exists n,
    unique sn name = Some (n, {[n]} ∪ sn) /\
    (n ∉ sn) /\ n <> "" /\
    (((name ∉ sn) /\ name <> "" /\ n = name) \/
     ((name ∈ sn \/ name = "") /\
      exists i, 2 <= i /\ n = name +:+ "_" +:+ of_nat i /\
                forall j, 2 <= j < i -> name +:+ "_" +:+ of_nat j ∈ sn)).
Proof.
  unfold unique. rewrite unique_loop_step. unfold eqb.
  destruct (bool_decide (name ∈ sn) || bool_decide (name = "")) eqn:E.
  - destruct (unique_loop_finds sn name (S (size sn)) sn 2)
      as (m & Hm & Hr & Hf & Hb); [lia | auto |].
    rewrite Hr.
    exists (candidate name m). split; [reflexivity|]. split; [exact Hf|].
    split; [apply candidate_nonempty|]. right. split.
    + apply orb_true_iff in E.
      destruct E as [E|E]; apply bool_decide_eq_true in E; auto.
    + exists m. split; [exact Hm|]. split; [reflexivity | exact Hb].
  - apply orb_false_iff in E. destruct E as [E1 E2].
    apply bool_decide_eq_false in E1, E2.
    exists name. split; [reflexivity|]. split; [exact E1|].
    split; [exact E2|]. left. auto.
Qed.

End UniqueFacts.

Section MapTypeFacts.
Import PyStr Re Generator Notions.

Lemma lower_char_word (c : ascii) : is_word (lower_char c) = is_word c.
Proof. each_ascii c. Qed.

Lemma lower_char_space (c : ascii) : is_space (lower_char c) = is_space c.
Proof. each_ascii c. Qed.

Lemma lower_char_idem (c : ascii) : lower_char (lower_char c) = lower_char c.
Proof. each_ascii c. Qed.

Lemma eat_lower (l : string) :
  forall (prev : option ascii) (s : string),
    eat l (lower_prev prev) (lower s)
    = option_map (fun ps => (lower_prev (fst ps), lower (snd ps)))
                 (eat l prev s).
Proof.
  induction l as [|a l IH]; intros prev s; cbn [eat].
  - reflexivity.
  - destruct s as [|b s]; [reflexivity|].
    change (lower (String b s)) with (String (lower_char b) (lower s)).
    cbn iota. rewrite lower_char_idem.
    destruct (code (lower_char a) =? code (lower_char b)); [|reflexivity].
    apply (IH (Some b)).
Qed.

Lemma matches_lower (r : rx) :
  forall (prev : option ascii) (s : string)
         (k k' : option ascii -> string -> bool),
    (forall p s', k' (lower_prev p) (lower s') = k p s') ->
    matches r (lower_prev prev) (lower s) k' = matches r prev s k.
Proof.
  induction r as [l| |a IHa b IHb|a IHa b IHb|a IHa];
    intros prev s k k' Hk; cbn [matches].
  - rewrite eat_lower. destruct (eat l prev s) as [[p' s']|]; cbn;
      [apply Hk | reflexivity].
  - rewrite Hk. f_equal. f_equal.
    + destruct prev as [c|]; cbn; [apply lower_char_word | reflexivity].
    + destruct s as [|c s]; cbn; [reflexivity | apply lower_char_word].
  - apply IHa. intros p s'. apply IHb, Hk.
  - rewrite (IHa _ _ k k' Hk), (IHb _ _ k k' Hk). reflexivity.
  - rewrite (IHa _ _ k k' Hk), Hk. reflexivity.
Qed.

Lemma search_from_lower (r : rx) (s : string) :
  forall prev : option ascii,
    search_from r (lower_prev prev) (lower s) = search_from r prev s.
Proof.
  induction s as [|c s IH]; intros prev.
  - change (lower "") with EmptyString. cbn [search_from]. unfold match_at.
    rewrite <- (matches_lower r prev "" (fun _ _ => true) (fun _ _ => true))
      by reflexivity.
    reflexivity.
  - change (lower (String c s)) with (String (lower_char c) (lower s)).
    cbn [search_from]. unfold match_at.
    rewrite <- (matches_lower r prev (String c s) (fun _ _ => true)
                              (fun _ _ => true)) by reflexivity.
    change (lower (String c s)) with (String (lower_char c) (lower s)).
    f_equal. apply (IH (Some c)).
Qed.

Lemma search_lower (r : rx) (s : string) : search r (lower s) = search r s.
Proof. apply (search_from_lower r s None). Qed.

Lemma dropw_map (d : ascii -> bool) (f : ascii -> ascii) (l : list ascii) :
  (forall c, d (f c) = d c) -> dropw d (map f l) = map f (dropw d l).
Proof.
  intros H. induction l as [|c l IH]; cbn; [reflexivity|].
  rewrite H. destruct (d c); [exact IH | reflexivity].
Qed.

Lemma strip_lower (s : string) : strip (lower s) = lower (strip s).
Proof.
  apply chars_inj. unfold strip, lower.
  rewrite chars_strip, !chars_map, chars_strip. unfold trim.
  rewrite (dropw_map _ _ _ lower_char_space), <- map_rev,
    (dropw_map _ _ _ lower_char_space), map_rev. reflexivity.
Qed.

Lemma first_rule_lower (rules : list (rx * string)) (t : string) :
  first_rule rules (lower t) = first_rule rules t.
Proof.
  induction rules as [|[r out] rest IH]; cbn [first_rule]; [reflexivity|].
  rewrite search_lower, IH. reflexivity.
Qed.


End MapTypeFacts.

Section RenderFacts.
Import PyStr Re Generator Notions.

Lemma row_aliases_nil (p : ParamRow) :
  row_aliases p = [] <-> excluded (lower (p_flags p)) = true.
Proof.
  unfold row_aliases. destruct (excluded _); split; auto; try discriminate.
  intros H. apply map_eq_nil in H.
  pose proof (split_names_nonempty (p_name p)) as Hne. contradiction.
Qed.

Lemma aliases_nil (params : list ParamRow) :
  aliases params = [] <->
  forallb (fun p => excluded (lower (p_flags p))) params = true.
Proof.
  unfold aliases. induction params as [|p rest IH]; cbn [flat_map forallb].
  - tauto.
  - rewrite andb_true_iff, <- IH, <- row_aliases_nil.
    split.
    + intros H. apply app_eq_nil in H. exact H.
    + intros [-> ->]. reflexivity.
Qed.

Lemma accepted_nil_iff (params : list ParamRow) :
  accepted params = [] <-> aliases params = [].
Proof.
  split; [apply accepted_nil|]. unfold accepted. intros ->. reflexivity.
Qed.

Lemma aliases_surviving (params : list ParamRow) :
  aliases (surviving params) = aliases params.
Proof.
  unfold aliases, surviving.
  induction params as [|p rest IH]; cbn [List.filter flat_map]; [reflexivity|].
  destruct (excluded (lower (p_flags p))) eqn:E; cbn [negb flat_map].
  - rewrite IH. apply row_aliases_nil in E. rewrite E. reflexivity.
  - rewrite IH. reflexivity.
Qed.

Lemma render_class_parts (spec : PluginSpec) (category_name : string) :
  render_class spec category_name
  = match render_parts spec category_name with
    | Ok parts => Ok (format_class parts)
    | Raise e => Raise e
    end.
Proof. reflexivity. Qed.

(** [render_class] fails in exactly one way: on a shape category when
    every row is excluded by its flags (or there is none), with the unbound
    loop variable [raw_name]. *)
Theorem render_class_raises_iff (spec : PluginSpec) (category_name : string) :
  (render_class spec category_name = Raise (UnboundLocalError "raw_name") <->
   is_shape_category category_name = true /\
   forallb (fun p => excluded (lower (p_flags p))) (s_params spec) = true) /\
  (forall e, render_class spec category_name = Raise e ->
             e = UnboundLocalError "raw_name") /\
  (is_shape_category category_name = false ->
   exists text, render_class spec category_name = Ok text).
Proof.
  rewrite render_class_parts.
  split; [|split].
  - rewrite <- aliases_nil, <- accepted_nil_iff. split.
    + intros H.
      destruct (is_shape_category category_name) eqn:Hs.
      * split; [reflexivity|].
        destruct (accepted (s_params spec)) eqn:Ha; [reflexivity|].
        destruct (render_parts_returns spec category_name) as [parts Hp].
        { right. rewrite Ha. discriminate. }
        rewrite Hp in H. discriminate.
      * destruct (render_parts_returns spec category_name) as [parts Hp];
          [left; exact Hs|].
        rewrite Hp in H. discriminate.
    + intros [Hs Ha]. rewrite (render_parts_unbound _ _ Hs Ha). reflexivity.
  - intros e H.
    destruct (render_parts_outcome spec category_name) as [[parts Hp]|Hr].
    + rewrite Hp in H. discriminate.
    + rewrite Hr in H. congruence.
  - intros Hs.
    destruct (render_parts_returns spec category_name) as [parts Hp];
      [left; exact Hs|].
    rewrite Hp. eauto.
Qed.

(** The second "inject optional bsdf" block is dead code: deleting it
    changes no result of [render_class]. *)
Theorem second_bsdf_block_dead (spec : PluginSpec) (category_name : string) :
  render_class spec category_name
  = (st <- for_each step_row (s_params spec) init_locals ;;
     st <- inject_bsdf_1 (is_shape_category category_name) st ;;
     Ok (format_class (finish spec st))).
Proof.
  unfold render_class, render_parts.
  destruct (for_each step_row (s_params spec) init_locals) as [st|e];
    cbn [bind]; [|reflexivity].
  destruct (inject_bsdf_1 (is_shape_category category_name) st) as [st'|e]
    eqn:H1; cbn [bind]; [|reflexivity].
  rewrite (inject_bsdf_2_dead _ _ _ H1). reflexivity.
Qed.

Lemma filter_lengths (f : entry -> bool) (l : list entry) :
  length (List.filter f l) + length (List.filter (fun e => negb (f e)) l)
  = length l.
Proof.
  induction l as [|x l IH]; cbn [List.filter]; [reflexivity|].
  destruct (f x); cbn [negb length]; lia.
Qed.

(** Rows flagged state, derived or output have no effect on the fields,
    the constructor arguments and the assignments, nor on whether
    [render_class] returns; outside shape categories they have no effect
    on the generated text at all. *)
Theorem excluded_rows_ignored (spec : PluginSpec) (category_name : string) :
  let spec' := with_params spec (surviving (s_params spec)) in
  (is_shape_category category_name = false ->
   render_class spec' category_name = render_class spec category_name) /\
  (forall parts,
      render_parts spec category_name = Ok parts ->
      exists parts',
        render_parts spec' category_name = Ok parts' /\
        fields parts' = fields parts /\
        ctor_args parts' = ctor_args parts /\
        assignments parts' = assignments parts) /\
  (forall e,
      render_parts spec category_name = Raise e ->
      render_parts spec' category_name = Raise e).
Proof.
  cbv zeta.
  assert (Hacc : accepted (surviving (s_params spec))
                 = accepted (s_params spec)).
  { unfold accepted. rewrite aliases_surviving. reflexivity. }
  split; [|split].
  - intros Hs. unfold render_class, render_parts.
    rewrite !rows_loop_init. cbn [bind s_params with_params].
    unfold inject_bsdf_1, inject_bsdf_2. rewrite Hs. cbn [andb bind].
    rewrite Hacc. reflexivity.
  - intros parts Hp.
    assert (Hret : is_shape_category category_name = false \/
                   accepted (s_params spec) <> []).
    { destruct (is_shape_category category_name) eqn:Hs; [right|left; auto].
      intros Ha. rewrite (render_parts_unbound _ _ Hs Ha) in Hp.
      discriminate. }
    destruct (render_parts_returns
                (with_params spec (surviving (s_params spec))) category_name)
      as [parts' Hp'].
    { cbn [s_params with_params]. rewrite Hacc. exact Hret. }
    exists parts'. split; [exact Hp'|].
    destruct (render_parts_ok _ _ _ Hp) as (Hf & Hc & Ha).
    destruct (render_parts_ok _ _ _ Hp') as (Hf' & Hc' & Ha').
    cbn [s_params with_params] in Hf', Hc', Ha'. rewrite Hacc in Hf', Hc', Ha'.
    rewrite Hf, Hc, Ha, Hf', Hc', Ha'. auto.
  - intros e He.
    destruct (render_parts_outcome spec category_name) as [[parts Hp]|Hr].
    { rewrite Hp in He. discriminate. }
    rewrite Hr in He. injection He as <-.
    destruct (is_shape_category category_name) eqn:Hs.
    + apply render_parts_unbound; [exact Hs|].
      cbn [s_params with_params]. rewrite Hacc.
      destruct (accepted (s_params spec)) eqn:Ha; [reflexivity|].
      destruct (render_parts_returns spec category_name) as [parts Hp].
      { right. rewrite Ha. discriminate. }
      rewrite Hp in Hr. discriminate.
    + destruct (render_parts_returns spec category_name) as [parts Hp];
        [left; exact Hs|].
      rewrite Hp in Hr. discriminate.
Qed.

(** The doc block lists the kept aliases in encounter order, each with its
    raw name, type text, markers and description, followed by one more line
    exactly when [bsdf] is injected; it has one line per declared field. *)
Theorem param_docs_listing
        (spec : PluginSpec) (category_name : string) (parts : ClassParts) :
  render_parts spec category_name = Ok parts ->
  let kept := accepted (s_params spec) in
  (kept = [] ->
   param_docs parts = ["        (no parameters documented)"] /\
   fields parts = ["    pass"]) /\
  (kept <> [] ->
   exists tail,
     param_docs parts = map e_doc kept ++ tail /\
     length tail = (if injects_bsdf category_name kept then 1 else 0)) /\
  length (param_docs parts) = length (fields parts).
Proof.
  intros Hok kept.
  destruct (render_parts_ok _ _ _ Hok) as (Hf & _ & _). fold kept in Hf.
  assert (Hne : is_shape_category category_name = true -> kept <> []).
  { intros Hs Hk. rewrite (render_parts_unbound _ _ Hs Hk) in Hok.
    discriminate. }
  unfold render_parts in Hok. rewrite rows_loop_init in Hok.
  cbn [bind] in Hok. fold kept in Hok.
  destruct (inject_bsdf_1 _ _) as [st'|] eqn:H1; [|discriminate].
  cbn [bind] in Hok. rewrite (inject_bsdf_2_dead _ _ _ H1) in Hok.
  injection Hok as <-. unfold inject_bsdf_1 in H1.
  rewrite bsdf_seen in H1. fold (injects_bsdf category_name kept) in H1.
  assert (Hdocs : docs st' = map e_doc kept ++
                    (if injects_bsdf category_name kept
                     then drop (length kept) (docs st') else []) /\
                  length (docs st') = length kept +
                    (if injects_bsdf category_name kept then 1 else 0) /\
                  length (required_fields st' ++ optional_fields st')
                  = length (docs st')).
  { destruct (injects_bsdf category_name kept).
    - destruct (read "raw_name" _) as [raw|]; [|discriminate].
      destruct (read "p" _) as [p|]; [|discriminate].
      destruct (read "marker_str" _) as [ms|]; [|discriminate].
      cbn [bind] in H1. injection H1 as <-.
      cbn [add_bsdf state_of docs required_fields optional_fields].
      rewrite <- (length_map e_doc kept) at 1.
      rewrite drop_app_length. rewrite !length_app, !length_map.
      split; [reflexivity|]. split; [cbn; lia|].
      cbn [length]. pose proof (filter_lengths e_required kept). lia.
    - injection H1 as <-.
      cbn [state_of docs required_fields optional_fields].
      rewrite app_nil_r, !length_app, !length_map.
      split; [reflexivity|]. split; [lia|].
      pose proof (filter_lengths e_required kept). lia. }
  destruct Hdocs as (Hd & Hlen & Hfl).
  unfold finish in *. cbn [param_docs fields] in *.
  destruct (required_fields st' ++ optional_fields st') as [|f0 fs] eqn:Hfs.
  - cbn [length] in Hfl.
    assert (Hk : kept = []).
    { destruct kept; [reflexivity|]. cbn [length] in Hlen. lia. }
    split; [|split].
    + intros _. split; reflexivity.
    + intros H. contradiction.
    + reflexivity.
  - assert (Hk : kept <> []).
    { intros Hk. cbn [length] in Hfl.
      destruct (injects_bsdf category_name kept) eqn:Hi.
      - unfold injects_bsdf in Hi. apply andb_prop in Hi.
        destruct Hi as [Hs _]. exact (Hne Hs Hk).
      - rewrite Hk in Hlen. cbn [length] in Hlen. lia. }
    split; [|split].
    + intros H. contradiction.
    + intros _. eexists. split; [exact Hd|].
      destruct (injects_bsdf category_name kept); [|reflexivity].
      rewrite length_drop. lia.
    + exact (eq_sym Hfl).
Qed.

End RenderFacts.

Section ToMiConcat.
Import PyStr Dict Utils SceneModel Notions.
Context {R T : Type} (mi : ScalarTransform4f R T).
Hypothesis matmul_assoc :
  forall a b c,
    T_matmul mi a (T_matmul mi b c) = T_matmul mi (T_matmul mi a b) c.
Hypothesis matmul_new_l : forall a, T_matmul mi (T_new mi) a = a.
Hypothesis matmul_new_r : forall a, T_matmul mi a (T_new mi) = a.

Lemma compose_onto (pieces : list T) :
  forall cur : T,
    fold_left (fun cur piece => T_matmul mi piece cur) pieces cur
    = T_matmul mi
        (fold_left (fun cur piece => T_matmul mi piece cur) pieces (T_new mi))
        cur.
Proof.
  induction pieces as [|p rest IH]; intros cur; cbn [fold_left].
  - rewrite matmul_new_l. reflexivity.
  - rewrite IH, (IH (T_matmul mi p (T_new mi))), matmul_new_r.
    rewrite matmul_assoc. reflexivity.
Qed.

(** A chain recorded in two parts composes as the product of the parts,
    the later part on the left; a failure in the first part is the failure
    of the whole. *)
Theorem to_mi_concat (t1 t2 : Transform R) :
  (forall m1 m2,
      to_mi mi t1 = Ok m1 -> to_mi mi t2 = Ok m2 ->
      to_mi mi (mkTransform (_ops t1 ++ _ops t2)) = Ok (T_matmul mi m2 m1)) /\
  (forall e,
      to_mi mi t1 = Raise e ->
      to_mi mi (mkTransform (_ops t1 ++ _ops t2)) = Raise e) /\
  (forall m1 e,
      to_mi mi t1 = Ok m1 -> to_mi mi t2 = Raise e ->
      to_mi mi (mkTransform (_ops t1 ++ _ops t2)) = Raise e).
Proof.
  unfold to_mi. cbn [_ops]. rewrite for_each_app.
  split; [|split].
  - intros m1 m2 H1 H2. rewrite H1. cbn [bind].
    rewrite to_mi_from in H2 |- *.
    destruct (pieces_of mi (_ops t2)) as [pieces|]; [|discriminate].
    cbn [bind] in *. injection H2 as <-. rewrite compose_onto. reflexivity.
  - intros e H1. rewrite H1. reflexivity.
  - intros m1 e H1 H2. rewrite H1. cbn [bind].
    rewrite to_mi_from in H2 |- *.
    destruct (pieces_of mi (_ops t2)) as [pieces|]; [discriminate|].
    exact H2.
Qed.

End ToMiConcat.

Section ExactMonoid.
Import PyStr Dict Utils SceneModel Notions.
Import Exact Examples.
Local Open Scope Z_scope.

Lemma matmul_assoc_exact (a b c : mat4) :
  matmul a (matmul b c) = matmul (matmul a b) c.
Proof.
  destruct a as [[[a0 a1] a2] a3], b as [[[b0 b1] b2] b3],
           c as [[[c0 c1] c2] c3].
  destruct a0 as [[[? ?] ?] ?], a1 as [[[? ?] ?] ?],
           a2 as [[[? ?] ?] ?], a3 as [[[? ?] ?] ?].
  destruct b0 as [[[? ?] ?] ?], b1 as [[[? ?] ?] ?],
           b2 as [[[? ?] ?] ?], b3 as [[[? ?] ?] ?].
  destruct c0 as [[[? ?] ?] ?], c1 as [[[? ?] ?] ?],
           c2 as [[[? ?] ?] ?], c3 as [[[? ?] ?] ?].
  unfold matmul, row_times, col, dot.
  repeat (f_equal; try ring).
Qed.

Lemma matmul_identity_l (a : mat4) : matmul identity a = a.
Proof.
  destruct a as [[[a0 a1] a2] a3].
  destruct a0 as [[[? ?] ?] ?], a1 as [[[? ?] ?] ?],
           a2 as [[[? ?] ?] ?], a3 as [[[? ?] ?] ?].
  unfold matmul, identity, row_times, col, dot.
  repeat (f_equal; try ring).
Qed.

Lemma matmul_identity_r (a : mat4) : matmul a identity = a.
Proof.
  destruct a as [[[a0 a1] a2] a3].
  destruct a0 as [[[? ?] ?] ?], a1 as [[[? ?] ?] ?],
           a2 as [[[? ?] ?] ?], a3 as [[[? ?] ?] ?].
  unfold matmul, identity, row_times, col, dot.
  repeat (f_equal; try ring).
Qed.

Lemma to_mi_concat_witness :
  to_mi plain (mkTransform (_ops (translate Transform_new 1 0 0) ++
                            _ops (scale Transform_new 2 None None)))
  = Ok (matmul (scaling 2 2 2) (translation 1 0 0)).
Proof.
  destruct (to_mi_concat plain matmul_assoc_exact matmul_identity_l
              matmul_identity_r
              (translate Transform_new 1 0 0) (scale Transform_new 2 None None))
    as (H & _ & _).
  rewrite (H (translation 1 0 0) (scaling 2 2 2)
             ltac:(vm_compute; reflexivity) ltac:(vm_compute; reflexivity)).
  reflexivity.
Defined.

End ExactMonoid.

Section MoreDictFacts.
Import PyStr Dict Utils SceneModel Notions.
Context {V : Type}.

Lemma dict_get_not_in (k : string) (d : dict V) :
  k ∉ keys d -> dict_get k d = None.
Proof.
  induction d as [|[k0 v0] d IH]; cbn [dict_get keys map fst]; [reflexivity|].
  intros H. apply not_elem_of_cons in H. destruct H as [Hne H].
  rewrite bool_decide_eq_false_2 by congruence. apply IH, H.
Qed.

Lemma dict_set_fresh (k : string) (v : V) (d : dict V) :
  k ∉ keys d -> dict_set k v d = d ++ [(k, v)].
Proof.
  induction d as [|[k0 v0] d IH]; cbn [dict_set keys map fst app];
    [reflexivity|].
  intros H. apply not_elem_of_cons in H. destruct H as [Hne H].
  rewrite bool_decide_eq_false_2 by congruence. rewrite (IH H). reflexivity.
Qed.

Lemma keys_set (k : string) (v : V) (d : dict V) :
  keys (dict_set k v d) = if bool_decide (k ∈ keys d) then keys d
                          else keys d ++ [k].
Proof.
  case_bool_decide as H.
  - apply keys_set_present, H.
  - rewrite (dict_set_fresh _ _ _ H). unfold keys. rewrite map_app.
    reflexivity.
Qed.

Lemma keys_set_NoDup (k : string) (v : V) (d : dict V) :
  NoDup (keys d) -> NoDup (keys (dict_set k v d)).
Proof.
  intros H. rewrite keys_set. case_bool_decide as Hk; [exact H|].
  apply NoDup_app. split; [exact H|]. split.
  - intros x Hx Hx'. apply list_elem_of_singleton in Hx'. subst. contradiction.
  - apply NoDup_singleton.
Qed.

End MoreDictFacts.

Section SceneMore.
Import PyStr Dict Utils SceneModel Notions.
Context {R T : Type} (mi : ScalarTransform4f R T).

Lemma sensor_key_inj (i j : nat) : sensor_key i = sensor_key j -> i = j.
Proof.
  unfold sensor_key. intros H. apply append_inj_l in H. apply of_nat_inj, H.
Qed.

Lemma put_all_get (group : dict (Plugin R T)) (k : string) (p : Plugin R T) :
  NoDup (keys group) -> dict_get k group = Some p ->
  forall d d' : dict (value R T),
    put_all mi group d = Ok d' ->
    exists v, serialize mi (VPlugin p) = Ok v /\ dict_get k d' = Some v.
Proof.
  unfold put_all.
  induction group as [|[k0 p0] group IH]; intros Hnd Hget d d' H.
  - discriminate Hget.
  - cbn [keys map fst] in Hnd. apply NoDup_cons in Hnd.
    destruct Hnd as [Hk0 Hnd].
    cbn [for_each fst snd] in H.
    destruct (put mi d k0 p0) as [d1|e] eqn:Hput; cbn [bind] in H;
      [|discriminate].
    apply put_get_eq in Hput. destruct Hput as (v & Hv & ->).
    cbn [dict_get] in Hget. case_bool_decide as Hk.
    + injection Hget as <-. subst k0. exists v. split; [exact Hv|].
      rewrite (put_all_other mi group k Hk0 _ _ H). apply dict_get_set_eq.
    + apply (IH Hnd Hget _ _ H).
Qed.

(** The steps of [to_dict], one after the other. *)
Lemma to_dict_steps (self : Scene R T) (d : dict (value R T)) :
  to_dict mi self = Ok d ->
  exists d1 d2 ds de dm da,
    match integrator self with
    | Some p => put mi [("type", VStr "scene")] "integrator" p
    | None => Ok [("type", VStr "scene")]
    end = Ok d1 /\
    match sensors self with
    | [s] => put mi d1 "sensor" s
    | ss => for_each (fun d i_s => put mi d (sensor_key (fst i_s)) (snd i_s))
                     (enumerate ss) d1
    end = Ok d2 /\
    put_all mi (shapes self) d2 = Ok ds /\
    put_all mi (emitters self) ds = Ok de /\
    put_all mi (media self) de = Ok dm /\
    put_all mi (assets self) dm = Ok da /\
    d = match scene_id self with
        | Some i => dict_set "id" (VStr i) da
        | None => da
        end.
Proof.
  unfold to_dict. intros H.
  destruct (match integrator self with Some _ => _ | None => _ end)
    as [d1|]; [|discriminate]. cbn [bind] in H.
  destruct (match sensors self with [] => _ | _ => _ end)
    as [d2|] eqn:E2; [|discriminate]. cbn [bind] in H.
  destruct (put_all mi (shapes self) d2) as [ds|] eqn:Es; [|discriminate].
  cbn [bind] in H.
  destruct (put_all mi (emitters self) ds) as [de|] eqn:Ee; [|discriminate].
  cbn [bind] in H.
  destruct (put_all mi (media self) de) as [dm|] eqn:Em; [|discriminate].
  cbn [bind] in H.
  destruct (put_all mi (assets self) dm) as [da|] eqn:Ea; [|discriminate].
  cbn [bind] in H. injection H as <-.
  exists d1, d2, ds, de, dm, da. repeat split; auto.
Qed.

Lemma sensor_loop (l : list (Plugin R T)) :
  forall (a : nat) (d d' : dict (value R T)),
    for_each (fun d i_s => put mi d (sensor_key (fst i_s)) (snd i_s))
             (combine (seq a (length l)) l) d = Ok d' ->
    (forall i s, l !! i = Some s ->
                 exists v, serialize mi (VPlugin s) = Ok v /\
                           dict_get (sensor_key (a + i)) d' = Some v) /\
    (forall k, (forall i, i < length l -> k <> sensor_key (a + i)) ->
               dict_get k d' = dict_get k d).
Proof.
  induction l as [|s0 l IH]; intros a d d' H.
  - cbn in H. injection H as <-. split; [intros i s Hi; discriminate Hi|].
    reflexivity.
  - cbn [length seq combine for_each fst snd] in H.
    destruct (put mi d (sensor_key a) s0) as [d0|] eqn:Hput; [|discriminate].
    cbn [bind] in H. apply put_get_eq in Hput.
    destruct Hput as (v0 & Hv0 & ->).
    destruct (IH _ _ _ H) as [Hin Hout]. split.
    + intros [|i] s Hi.
      * cbn in Hi. injection Hi as <-. exists v0. split; [exact Hv0|].
        rewrite Hout.
        -- rewrite Nat.add_0_r. apply dict_get_set_eq.
        -- intros i Hi Heq. apply sensor_key_inj in Heq. lia.
      * cbn in Hi. destruct (Hin i s Hi) as (v & Hv & Hg).
        exists v. split; [exact Hv|].
        replace (a + S i) with (S a + i) by lia. exact Hg.
    + intros k Hk. rewrite Hout.
      * apply dict_get_set_ne. specialize (Hk 0 ltac:(cbn; lia)).
        rewrite Nat.add_0_r in Hk. exact Hk.
      * intros i Hi. specialize (Hk (S i) ltac:(cbn; lia)).
        replace (a + S i) with (S a + i) in Hk by lia. exact Hk.
Qed.

Lemma sensor_key_head (i : nat) :
  exists rest, sensor_key i = String "s"%char rest.
Proof. unfold sensor_key. eexists. reflexivity. Qed.

Lemma after_integrator (self : Scene R T) (d1 : dict (value R T)) :
  match integrator self with
  | Some p => put mi [("type", VStr "scene")] "integrator" p
  | None => Ok [("type", VStr "scene")]
  end = Ok d1 ->
  dict_get "type" d1 = Some (VStr "scene") /\
  (forall k, k <> "type" -> k <> "integrator" -> dict_get k d1 = None) /\
  match integrator self with
  | Some p => exists v, serialize mi (VPlugin p) = Ok v /\
                        dict_get "integrator" d1 = Some v
  | None => dict_get "integrator" d1 = None
  end.
Proof.
  intros H. destruct (integrator self) as [p|].
  - apply put_get_eq in H. destruct H as (v & Hv & ->).
    split; [reflexivity|]. split.
    + intros k Ht Hi. rewrite dict_get_set_ne by exact Hi.
      cbn [dict_get]. rewrite bool_decide_eq_false_2 by congruence.
      reflexivity.
    + exists v. split; [exact Hv | reflexivity].
  - injection H as <-. split; [reflexivity|]. split; [|reflexivity].
    intros k Ht _. cbn [dict_get].
    rewrite bool_decide_eq_false_2 by congruence. reflexivity.
Qed.

(** What the sensor step leaves alone: every key that is neither "sensor"
    nor a [sensor_key]. *)
Lemma after_sensors (self : Scene R T) (d1 d2 : dict (value R T)) (k : string) :
  match sensors self with
  | [s] => put mi d1 "sensor" s
  | ss => for_each (fun d i_s => put mi d (sensor_key (fst i_s)) (snd i_s))
                   (enumerate ss) d1
  end = Ok d2 ->
  k <> "sensor" -> (forall i, k <> sensor_key i) ->
  dict_get k d2 = dict_get k d1.
Proof.
  intros H Hk Hki.
  assert (Hloop : forall ss,
             for_each (fun d i_s => put mi d (sensor_key (fst i_s)) (snd i_s))
                      (enumerate ss) d1 = Ok d2 ->
             dict_get k d2 = dict_get k d1).
  { intros ss Hss. unfold enumerate in Hss.
    apply (sensor_loop ss 0 d1 d2 Hss). intros i _. apply Hki. }
  destruct (sensors self) as [|s [|s' ss]] eqn:E.
  - apply (Hloop [] H).
  - apply put_get_eq in H. destruct H as (v & _ & ->).
    apply dict_get_set_ne, Hk.
  - apply (Hloop (s :: s' :: ss) H).
Qed.

End SceneMore.

Section SceneTheorems.
Import PyStr Dict Utils SceneModel Notions.
Context {R T : Type} (mi : ScalarTransform4f R T).

Lemma sensor_key_not (k : string) :
  (forall rest, k <> String "s"%char rest) ->
  k <> "sensor" /\ forall i, k <> sensor_key i.
Proof.
  intros H. split; [apply H|]. intros i.
  destruct (sensor_key_head i) as [rest ->]. apply H.
Qed.

(** The entries "type", "integrator" and "id" of [to_dict]: the scene's
    identifier, written last, is never replaced; "type" and "integrator"
    are as the scene has them unless a shape, emitter, medium or asset is
    stored under that name. *)
Theorem reserved_entries (self : Scene R T) (d : dict (value R T)) :
  to_dict mi self = Ok d ->
  (forall i, scene_id self = Some i -> dict_get "id" d = Some (VStr i)) /\
  (scene_id self = None -> "id" ∉ group_keys self ->
   dict_get "id" d = None) /\
  ("type" ∉ group_keys self -> dict_get "type" d = Some (VStr "scene")) /\
  (forall p, integrator self = Some p ->
             exists v, serialize mi (VPlugin p) = Ok v /\
                       ("integrator" ∉ group_keys self ->
                        dict_get "integrator" d = Some v)) /\
  (integrator self = None -> "integrator" ∉ group_keys self ->
   dict_get "integrator" d = None).
Proof.
  intros H.
  destruct (to_dict_steps mi self d H)
    as (d1 & d2 & ds & de & dm & da & H1 & H2 & Hs & He & Hm & Ha & Hd).
  assert (Hgroups : forall k, k ∉ group_keys self -> k <> "id" ->
                              dict_get k d = dict_get k d2).
  { intros k Hk Hid. apply (groups_other mi self k d2 d Hk Hid).
    rewrite Hs. cbn [bind]. rewrite He. cbn [bind]. rewrite Hm. cbn [bind].
    rewrite Ha. cbn [bind]. rewrite Hd. reflexivity. }
  assert (Hplain : forall k, (forall rest, k <> String "s"%char rest) ->
                             dict_get k d2 = dict_get k d1).
  { intros k Hk. destruct (sensor_key_not k Hk) as [Hk1 Hk2].
    apply (after_sensors mi self d1 d2 k H2 Hk1 Hk2). }
  destruct (after_integrator mi self d1 H1) as (Ht & Hnone & Hint).
  split; [|split; [|split; [|split]]].
  - intros i Hi. rewrite Hd, Hi. apply dict_get_set_eq.
  - intros Hi Hk. rewrite Hd, Hi.
    assert (Hda : dict_get "id" da = dict_get "id" d2).
    { unfold group_keys in Hk. rewrite !not_elem_of_app in Hk.
      destruct Hk as (Hks & Hke & Hkm & Hka).
      rewrite (put_all_other mi _ _ Hka _ _ Ha),
        (put_all_other mi _ _ Hkm _ _ Hm),
        (put_all_other mi _ _ Hke _ _ He),
        (put_all_other mi _ _ Hks _ _ Hs). reflexivity. }
    rewrite Hda, Hplain by discriminate. apply Hnone; discriminate.
  - intros Hk. rewrite (Hgroups _ Hk) by discriminate.
    rewrite Hplain by discriminate. exact Ht.
  - intros p Hp. rewrite Hp in Hint. destruct Hint as (v & Hv & Hg).
    exists v. split; [exact Hv|]. intros Hk.
    rewrite (Hgroups _ Hk) by discriminate.
    rewrite Hplain by discriminate. exact Hg.
  - intros Hp Hk. rewrite Hp in Hint.
    rewrite (Hgroups _ Hk) by discriminate.
    rewrite Hplain by discriminate. exact Hint.
Qed.

(** With any number of sensors other than one, the [i]-th sensor is
    serialized under "sensor_i" (unless a later group uses that name), no
    further "sensor_j" and no "sensor" entry is written by the sensor
    step. *)
Theorem sensor_entries_indexed (self : Scene R T) (d : dict (value R T)) :
  to_dict mi self = Ok d ->
  length (sensors self) <> 1 ->
  (forall i s,
      sensors self !! i = Some s ->
      exists v, serialize mi (VPlugin s) = Ok v /\
                (sensor_key i ∉ group_keys self ->
                 dict_get (sensor_key i) d = Some v)) /\
  (forall i, length (sensors self) <= i ->
             sensor_key i ∉ group_keys self ->
             dict_get (sensor_key i) d = None) /\
  ("sensor" ∉ group_keys self -> dict_get "sensor" d = None).
Proof.
  intros H Hlen.
  destruct (to_dict_steps mi self d H)
    as (d1 & d2 & ds & de & dm & da & H1 & H2 & Hs & He & Hm & Ha & Hd).
  assert (Hgroups : forall k, k ∉ group_keys self -> k <> "id" ->
                              dict_get k d = dict_get k d2).
  { intros k Hk Hid. apply (groups_other mi self k d2 d Hk Hid).
    rewrite Hs. cbn [bind]. rewrite He. cbn [bind]. rewrite Hm. cbn [bind].
    rewrite Ha. cbn [bind]. rewrite Hd. reflexivity. }
  destruct (after_integrator mi self d1 H1) as (_ & Hnone & _).
  assert (Hloop : for_each
                    (fun d i_s => put mi d (sensor_key (fst i_s)) (snd i_s))
                    (combine (seq 0 (length (sensors self))) (sensors self)) d1
                  = Ok d2).
  { destruct (sensors self) as [|s [|s' ss]]; [exact H2 | | exact H2].
    cbn [length] in Hlen. congruence. }
  destruct (sensor_loop mi _ _ _ _ Hloop) as [Hin Hout].
  assert (Hkey : forall i, sensor_key i <> "id" /\ sensor_key i <> "type" /\
                           sensor_key i <> "integrator" /\
                           sensor_key i <> "sensor").
  { intros i. unfold sensor_key. repeat split; discriminate. }
  split; [|split].
  - intros i s Hi. destruct (Hin i s Hi) as (v & Hv & Hg).
    exists v. split; [exact Hv|]. intros Hk.
    rewrite (Hgroups _ Hk) by apply Hkey. exact Hg.
  - intros i Hi Hk. rewrite (Hgroups _ Hk) by apply Hkey.
    rewrite Hout.
    + apply Hnone; apply Hkey.
    + intros j Hj Heq. apply sensor_key_inj in Heq. lia.
  - intros Hk. rewrite (Hgroups _ Hk) by discriminate.
    rewrite Hout.
    + apply Hnone; discriminate.
    + intros j _ Heq. symmetry in Heq. apply (Hkey (0 + j)) in Heq. exact Heq.
Qed.

Lemma assets_written (self : Scene R T) (d : dict (value R T))
      (k : string) (p : Plugin R T) :
  to_dict mi self = Ok d ->
  NoDup (keys (assets self)) ->
  dict_get k (assets self) = Some p ->
  exists v, serialize mi (VPlugin p) = Ok v /\
            ((scene_id self = None \/ k <> "id") -> dict_get k d = Some v).
Proof.
  intros H Hnd Hget.
  destruct (to_dict_steps mi self d H)
    as (d1 & d2 & ds & de & dm & da & _ & _ & _ & _ & _ & Ha & Hd).
  destruct (put_all_get mi _ _ _ Hnd Hget _ _ Ha) as (v & Hv & Hg).
  exists v. split; [exact Hv|]. intros Hid. rewrite Hd.
  destruct (scene_id self) as [i|]; [|exact Hg].
  destruct Hid as [Hid|Hid]; [discriminate|].
  rewrite dict_get_set_ne by exact Hid. exact Hg.
Qed.

(** Every asset is serialized under its key, whatever the sensors, shapes,
    emitters and media are called: the assets are written last but for the
    scene's own identifier. *)
Theorem asset_entries (self : Scene R T) (d : dict (value R T))
        (k : string) (p : Plugin R T) :
  to_dict mi self = Ok d ->
  NoDup (keys (assets self)) ->
  dict_get k (assets self) = Some p ->
  exists v, serialize mi (VPlugin p) = Ok v /\
            ((scene_id self = None \/ k <> "id") -> dict_get k d = Some v).
Proof. apply assets_written. Qed.

(** The reference returned by [add_asset] names the added plugin's entry
    in the mapping of the scene. *)
Theorem add_asset_ref_resolves (self : Scene R T) (plugin : Plugin R T)
        (d : dict (value R T)) :
  NoDup (keys (assets self)) ->
  to_dict mi (fst (fst (add_asset self plugin))) = Ok d ->
  exists key v,
    snd (add_asset self plugin) = Ref key /\
    pid (snd (fst (add_asset self plugin))) = Some key /\
    serialize mi (VPlugin (snd (fst (add_asset self plugin)))) = Ok v /\
    ((scene_id self = None \/ key <> "id") -> dict_get key d = Some v).
Proof.
  intros Hnd H.
  assert (E : exists key p',
             add_asset self plugin
             = (mkScene (scene_id self) (integrator self) (sensors self)
                        (shapes self) (emitters self) (media self)
                        (dict_set key p' (assets self)),
                p', Ref key) /\ pid p' = Some key).
  { unfold add_asset. destruct (pid plugin) as [i|] eqn:Hp.
    - rewrite Hp. eauto.
    - cbn [pid set_id]. eauto. }
  destruct E as (key & p' & E & Hp'). rewrite E in H |- *. cbn [fst snd] in *.
  destruct (assets_written _ d key p' H) as (v & Hv & Hg).
  - cbn [assets]. apply keys_set_NoDup, Hnd.
  - cbn [assets]. apply dict_get_set_eq.
  - exists key, v. repeat split; auto.
Qed.

End SceneTheorems.

Section AutoNaming.
Import PyStr Dict Utils SceneModel Notions.
Context {R T : Type}.

Lemma asset_key_inj (i j : nat) : asset_key i = asset_key j -> i = j.
Proof.
  unfold asset_key. intros H. apply append_inj_l in H. apply of_nat_inj, H.
Qed.

Lemma add_assets_from (plugins : list (Plugin R T)) :
  forall (self : Scene R T) (n : nat),
    keys (assets self) = map asset_key (seq 1 n) ->
    Forall (fun p => pid p = None) plugins ->
    assets (fst (add_assets self plugins))
    = assets self ++
      map (fun ip => (asset_key (fst ip),
                      set_id (snd ip) (asset_key (fst ip))))
          (combine (seq (S n) (length plugins)) plugins) /\
    snd (add_assets self plugins)
    = map (fun i => Ref (asset_key i)) (seq (S n) (length plugins)).
Proof.
  induction plugins as [|p rest IH]; intros self n Hkeys Hall.
  - cbn. rewrite app_nil_r. split; reflexivity.
  - apply Forall_cons in Hall. destruct Hall as [Hp Hrest].
    cbn [add_assets]. unfold add_asset. rewrite Hp. cbn [pid set_id].
    assert (Hid : auto_id (assets self) = asset_key (S n)).
    { unfold auto_id, asset_key, dict_len.
      rewrite <- (length_map fst (assets self)).
      change (map fst (assets self)) with (keys (assets self)).
      rewrite Hkeys, length_map, length_seq, Nat.add_1_r. reflexivity. }
    rewrite Hid.
    assert (Hfresh : asset_key (S n) ∉ keys (assets self)).
    { rewrite Hkeys. intros Hin. apply list_elem_of_In, in_map_iff in Hin.
      destruct Hin as (j & Hj & Hin). apply asset_key_inj in Hj.
      apply in_seq in Hin. lia. }
    rewrite (dict_set_fresh _ _ _ Hfresh).
    set (self' := mkScene _ _ _ _ _ _ _).
    destruct (IH self' (S n)) as [Ha Hr].
    { unfold self'. cbn [assets]. unfold keys. rewrite map_app.
      change (map fst (assets self)) with (keys (assets self)).
      rewrite Hkeys. cbn [map fst]. rewrite seq_S, map_app. reflexivity. }
    { exact Hrest. }
    destruct (add_assets self' rest) as [sc refs]. cbn [fst snd] in *.
    split.
    + rewrite Ha. unfold self'. cbn [assets length seq combine map fst snd].
      rewrite <- app_assoc. reflexivity.
    + rewrite Hr. reflexivity.
Qed.


End AutoNaming.

Section SerializeFacts.
Import PyStr Dict Utils SceneModel Notions.
Context {R T : Type} (mi : ScalarTransform4f R T).

Lemma serialize_list (vs : list (value R T)) :
  serialize mi (VList vs) = (out <- serialize_each mi vs ;; Ok (VList out)).
Proof. reflexivity. Qed.

Lemma serialize_dict (kvs : list (string * value R T)) :
  serialize mi (VDict kvs) = (out <- serialize_items mi kvs [] ;; Ok (VDict out)).
Proof. reflexivity. Qed.

Lemma serialize_plugin (ty : string) (i : option string)
      (fs : list (string * value R T)) :
  serialize mi (VPlugin (mkPlugin ty i fs))
  = (out <- serialize_attrs mi fs
              (match i with
               | Some i => dict_set "id" (VStr i) [("type", VStr ty)]
               | None => [("type", VStr ty)]
               end) ;;
     Ok (VDict out)).
Proof. destruct i; reflexivity. Qed.

Lemma dict_set_Forall (P : value R T -> Prop) (k : string) (v : value R T)
      (d : dict (value R T)) :
  P v -> Forall (fun kv => P (snd kv)) d ->
  Forall (fun kv => P (snd kv)) (dict_set k v d).
Proof.
  intros Hv. induction d as [|[k0 v0] d IH]; intros Hd; cbn [dict_set].
  - constructor; [exact Hv | constructor].
  - apply Forall_cons in Hd. destruct Hd as [H0 Hd].
    case_bool_decide; constructor; auto.
Qed.

Lemma well_formed_set (k : string) (v : value R T) (d : dict (value R T)) :
  serialized v -> well_formed d -> well_formed (dict_set k v d).
Proof.
  intros Hv [Hn Hf]. split; [apply keys_set_NoDup, Hn|].
  apply dict_set_Forall; assumption.
Qed.

Lemma serialize_plain_out (v : value R T) :
  forall w, serialize mi v = Ok w -> serialized w.
Proof.
  apply (value_induction
           (fun v => forall w, serialize mi v = Ok w -> serialized w)
           (fun p => forall w, serialize mi (VPlugin p) = Ok w -> serialized w));
    try (intros;
         match goal with
         | H : serialize _ _ = Ok ?w |- serialized ?w =>
             injection H as <-; constructor
         end; fail).
  - intros vs IH w H. rewrite serialize_list in H.
    destruct (serialize_each mi vs) as [out|] eqn:E; [|discriminate].
    injection H as <-. constructor.
    revert out E. induction IH as [|x l Hx Hl IHl]; intros out E.
    + injection E as <-. constructor.
    + cbn [serialize_each] in E.
      destruct (serialize mi x) as [x'|] eqn:Ex; [|discriminate].
      destruct (serialize_each mi l) as [l'|]; [|discriminate].
      injection E as <-. constructor; [apply Hx; reflexivity|].
      apply IHl. reflexivity.
  - intros kvs IH w H. rewrite serialize_dict in H.
    destruct (serialize_items mi kvs []) as [out|] eqn:E; [|discriminate].
    injection H as <-.
    assert (Hwf : well_formed out).
    { assert (Hnil : well_formed (@nil (string * value R T)))
        by (split; [apply NoDup_nil_2 | apply Forall_nil_2]).
      revert E Hnil. generalize (@nil (string * value R T)).
      induction IH as [|[k x] l Hx Hl IHl]; intros acc E Hacc.
      - injection E as <-. exact Hacc.
      - cbn [serialize_items] in E.
        destruct (serialize mi x) as [x'|] eqn:Ex; [|discriminate].
        apply (IHl _ E). apply well_formed_set; [|exact Hacc].
        apply Hx. exact Ex. }
    destruct Hwf. constructor; assumption.
  - intros p Hp w H. apply Hp, H.
  - intros t w H. cbn in H. destruct (to_mi mi t); [|discriminate].
    injection H as <-. constructor.
  - intros ty i fs IH w H. rewrite serialize_plugin in H.
    set (start := match i with
                  | Some i => dict_set "id" (VStr i) [("type", VStr ty)]
                  | None => [("type", VStr ty)]
                  end) in H.
    assert (Hstart : well_formed start).
    { assert (H0 : @well_formed R T [("type", VStr ty)]).
      { split; [apply NoDup_singleton|]. repeat constructor. }
      unfold start.
      destruct i; [apply well_formed_set; [constructor | exact H0]
                  | exact H0]. }
    clearbody start.
    destruct (serialize_attrs mi fs start) as [out|] eqn:E; [|discriminate].
    injection H as <-.
    assert (Hwf : well_formed out).
    { revert start E Hstart.
      induction IH as [|[k x] l Hx Hl IHl]; intros acc E Hacc.
      - injection E as <-. exact Hacc.
      - cbn [serialize_attrs] in E.
        destruct (bool_decide (k = "type") || bool_decide (k = "id"));
          [apply (IHl _ E Hacc)|].
        cbn [snd] in Hx.
        destruct x; try (apply (IHl _ E Hacc));
          (destruct (serialize mi _) as [x'|] eqn:Ex; [|discriminate];
           apply (IHl _ E); apply well_formed_set; [|exact Hacc];
           apply Hx; first [exact Ex | reflexivity]). }
    destruct Hwf. constructor; assumption.
Qed.
Lemma serialize_plain_fixed (v : value R T) :
  serialized v -> serialize mi v = Ok v.
Proof.
  apply (value_induction
           (fun v => serialized v -> serialize mi v = Ok v)
           (fun p => True)); try (intros; reflexivity); try (intros; exact I).
  - intros vs IH Hp. inversion Hp as [| | | | | |vs' Hall|]; subst.
    rewrite serialize_list.
    assert (E : serialize_each mi vs = Ok vs).
    { clear Hp. induction IH as [|x l Hx Hl IHl]; [reflexivity|].
      apply Forall_cons in Hall. destruct Hall as [Hpx Hpl].
      cbn [serialize_each]. rewrite (Hx Hpx). cbn [bind].
      rewrite (IHl Hpl). reflexivity. }
    rewrite E. reflexivity.
  - intros kvs IH Hp. inversion Hp as [| | | | | | |kvs' Hnd Hall]; subst.
    rewrite serialize_dict.
    assert (E : forall acc,
               NoDup (keys (acc ++ kvs)) ->
               serialize_items mi kvs acc = Ok (acc ++ kvs)).
    { clear Hp Hnd. induction IH as [|[k x] l Hx Hl IHl]; intros acc Hn.
      - rewrite app_nil_r. reflexivity.
      - apply Forall_cons in Hall. destruct Hall as [Hpx Hpl].
        cbn [serialize_items]. cbn [snd] in Hx, Hpx.
        rewrite (Hx Hpx). cbn [bind].
        assert (Hk : k ∉ keys acc).
        { unfold keys in Hn. rewrite map_app in Hn. cbn [map fst] in Hn.
          apply NoDup_app in Hn. destruct Hn as (_ & Hn & _).
          intros Hin. apply (Hn k Hin). apply elem_of_cons. left.
          reflexivity. }
        rewrite (dict_set_fresh _ _ _ Hk).
        rewrite (IHl Hpl (acc ++ [(k, x)])).
        + rewrite <- app_assoc. reflexivity.
        + rewrite <- app_assoc. exact Hn. }
    rewrite (E [] Hnd). reflexivity.
  - intros p _ Hp. inversion Hp.
  - intros t Hp. inversion Hp.
Qed.


Lemma attrs_loop (fs : list (string * value R T)) :
  forall (out d : dict (value R T)),
    serialize_attrs mi fs out = Ok d ->
    (forall k, k = "type" \/ k = "id" \/ k ∉ keys fs ->
               dict_get k d = dict_get k out) /\
    (NoDup (keys fs) ->
     forall k v, dict_get k fs = Some v -> k <> "type" -> k <> "id" ->
       match v with
       | VNone => dict_get k d = dict_get k out
       | _ => exists v', serialize mi v = Ok v' /\ dict_get k d = Some v'
       end).
Proof.
  induction fs as [|[name x] rest IH]; intros out d H.
  - injection H as <-. split; [reflexivity|]. intros _ k v Hk. discriminate Hk.
  - cbn [serialize_attrs] in H.
    destruct (bool_decide (name = "type") || bool_decide (name = "id"))
      eqn:Hres.
    + destruct (IH _ _ H) as [Ha Hb]. split.
      * intros k Hk. apply Ha.
        destruct Hk as [Hk|[Hk|Hk]]; auto.
        right. right. cbn [keys map fst] in Hk.
        apply not_elem_of_cons in Hk. tauto.
      * intros Hnd k v Hget Ht Hi. cbn [keys map fst] in Hnd.
        apply NoDup_cons in Hnd. destruct Hnd as [_ Hnd].
        cbn [dict_get] in Hget. case_bool_decide as Hk.
        -- subst k. apply orb_true_iff in Hres.
           destruct Hres as [E|E]; apply bool_decide_eq_true in E; congruence.
        -- apply (Hb Hnd k v Hget Ht Hi).
    + apply orb_false_iff in Hres. destruct Hres as [Hnt Hni].
      apply bool_decide_eq_false in Hnt, Hni.
      assert (Hskip : forall d0,
                 serialize_attrs mi rest d0 = Ok d ->
                 (forall k, k = "type" \/ k = "id" \/
                            k ∉ keys ((name, x) :: rest) ->
                            dict_get k d = dict_get k d0) /\
                 (NoDup (keys ((name, x) :: rest)) ->
                  forall k v, dict_get k rest = Some v ->
                    k <> "type" -> k <> "id" -> k <> name ->
                    match v with
                    | VNone => dict_get k d = dict_get k d0
                    | _ => exists v', serialize mi v = Ok v' /\
                                      dict_get k d = Some v'
                    end) /\
                 (NoDup (keys ((name, x) :: rest)) ->
                  dict_get name d = dict_get name d0)).
      { intros d0 H0. destruct (IH _ _ H0) as [Ha Hb]. split; [|split].
        - intros k Hk. apply Ha. destruct Hk as [Hk|[Hk|Hk]]; auto.
          right. right. cbn [keys map fst] in Hk.
          apply not_elem_of_cons in Hk. tauto.
        - intros Hnd k v Hget Ht Hi _. cbn [keys map fst] in Hnd.
          apply NoDup_cons in Hnd. destruct Hnd as [_ Hnd].
          apply (Hb Hnd k v Hget Ht Hi).
        - intros Hnd. cbn [keys map fst] in Hnd.
          apply NoDup_cons in Hnd. destruct Hnd as [Hnin _].
          apply Ha. auto. }
      assert (Hcase :
        (x = VNone /\ serialize_attrs mi rest out = Ok d) \/
        (x <> VNone /\ exists x', serialize mi x = Ok x' /\
                        serialize_attrs mi rest (dict_set name x' out) = Ok d)).
      { destruct x; try (left; split; [reflexivity | exact H]);
          right; (split; [discriminate|]);
          (destruct (serialize mi _) as [x'|] eqn:Ex; [|discriminate]);
          exists x'; (split; [reflexivity | exact H]). }
      clear H. destruct Hcase as [[-> H0]|(Hx & x' & Hser & H0)].
      * destruct (Hskip _ H0) as (Ha & Hb & Hc). split; [exact Ha|].
        intros Hnd k v Hget Ht Hi. cbn [dict_get] in Hget.
        case_bool_decide as Hk.
        -- injection Hget as <-. subst k. apply Hc, Hnd.
        -- apply (Hb Hnd k v Hget Ht Hi). congruence.
      * destruct (Hskip _ H0) as (Ha & Hb & Hc). split.
        -- intros k Hk. rewrite (Ha k Hk). apply dict_get_set_ne.
           destruct Hk as [->|[->|Hk]]; [congruence | congruence |].
           cbn [keys map fst] in Hk. apply not_elem_of_cons in Hk. tauto.
        -- intros Hnd k v Hget Ht Hi. cbn [dict_get] in Hget.
           case_bool_decide as Hk.
           ++ injection Hget as <-. subst k.
              assert (Hgoal : exists v', serialize mi x = Ok v' /\
                                         dict_get name d = Some v').
              { exists x'. split; [exact Hser|]. rewrite (Hc Hnd).
                apply dict_get_set_eq. }
              destruct x; try exact Hgoal. congruence.
           ++ pose proof (Hb Hnd k v Hget Ht Hi ltac:(congruence)) as Hv.
              destruct v; try exact Hv.
              rewrite Hv. apply dict_get_set_ne. congruence.
Qed.

(** The mapping of a plugin: "type" is its type tag and "id" its
    identifier, present exactly when set, whatever the other attributes
    are called; an attribute holding [None] is left out, any other one is
    serialized under its name; no further key appears. *)
Theorem plugin_to_dict_entries (ty : string) (i : option string)
        (fs : list (string * value R T)) (w : value R T) :
  serialize mi (VPlugin (mkPlugin ty i fs)) = Ok w ->
  NoDup (keys fs) ->
  exists d,
    w = VDict d /\
    dict_get "type" d = Some (VStr ty) /\
    dict_get "id" d = option_map VStr i /\
    (forall k v,
        dict_get k fs = Some v -> k <> "type" -> k <> "id" ->
        match v with
        | VNone => dict_get k d = None
        | _ => exists v', serialize mi v = Ok v' /\ dict_get k d = Some v'
        end) /\
    (forall k, k ∉ keys fs -> k <> "type" -> k <> "id" ->
               dict_get k d = None).
Proof.
  intros H Hnd. rewrite serialize_plugin in H.
  set (start := match i with
                | Some i => dict_set "id" (VStr i) [("type", VStr ty)]
                | None => [("type", VStr ty)]
                end) in H.
  destruct (serialize_attrs mi fs start) as [d|] eqn:E; [|discriminate].
  injection H as <-. exists d. split; [reflexivity|].
  destruct (attrs_loop fs start d E) as [Ha Hb].
  assert (Hstart : dict_get "type" start = Some (VStr ty) /\
                   dict_get "id" start = option_map VStr i /\
                   forall k, k <> "type" -> k <> "id" ->
                             dict_get k start = None).
  { unfold start. destruct i as [i|]; cbn.
    - split; [reflexivity|]. split; [reflexivity|]. intros k Ht Hi.
      simpl.
      rewrite (bool_decide_eq_false_2 ("type" = k)) by congruence.
      rewrite (bool_decide_eq_false_2 ("id" = k)) by congruence.
      reflexivity.
    - split; [reflexivity|]. split; [reflexivity|]. intros k Ht Hi.
      simpl.
      rewrite (bool_decide_eq_false_2 ("type" = k)) by congruence.
      reflexivity. }
  destruct Hstart as (Hst & Hsi & Hso).
  split; [rewrite Ha by auto; exact Hst|].
  split; [rewrite Ha by auto; exact Hsi|].
  split.
  - intros k v Hget Ht Hi. pose proof (Hb Hnd k v Hget Ht Hi) as Hv.
    destruct v; try exact Hv. rewrite Hv. apply Hso; assumption.
  - intros k Hk Ht Hi. rewrite Ha by auto. apply Hso; assumption.
Qed.

End SerializeFacts.

Section ExtractFacts.
Import PyStr Re Generator Notions Extract.

Lemma split_names_stable (name : string) :
  Forall (fun n => split_names n = [n]) (split_names name).
Proof.
  pose proof (split_names_parts name) as Hparts. unfold split_names at 2.
  destruct (List.filter _ _) as [|x l] eqn:E.
  - constructor; [|constructor]. unfold split_names. rewrite E. reflexivity.
  - eapply Forall_impl; [exact Hparts|]. intros n Hn.
    apply split_names_plain, Hn.
Qed.

Lemma extract_find (tables : list Table) :
  extract_params tables
  = match List.find yields_rows tables with
    | Some table => table_rows table
    | None => []
    end.
Proof.
  unfold extract_params.
  induction tables as [|t rest IH]; cbn [extract_from List.find];
    [reflexivity|].
  unfold yields_rows at 1.
  destruct (header_ok (map lower (th t))); cbn [negb andb app]; [|exact IH].
  destruct (table_rows t) eqn:E; [exact IH | symmetry; exact E].
Qed.

(** [extract_params] returns the rows of one table: the first one with a
    parameter and a type header that yields a row; the rows of two tables
    are never mixed, and without such a table the result is empty. *)
Theorem extract_params_first_table (tables : list Table) :
  extract_params tables
  = match List.find yields_rows tables with
    | Some table => table_rows table
    | None => []
    end.
Proof. apply extract_find. Qed.

Lemma table_rows_stable (table : Table) :
  Forall (fun p => split_names (p_name p) = [p_name p]) (table_rows table).
Proof.
  unfold table_rows.
  generalize (default 0
                (index_where (contains "parameter") (map lower (th table)) 0)).
  generalize (default 1
                (index_where (contains "type") (map lower (th table)) 0)).
  generalize (default 2
                (index_where (fun h => contains "description" h ||
                                       contains "desc" h)
                             (map lower (th table)) 0)).
  generalize (index_where (contains "flags") (map lower (th table)) 0).
  intros fl de ty na.
  induction (trs table) as [|tds rest IH]; cbn [flat_map]; [constructor|].
  apply Forall_app. split; [|exact IH].
  destruct tds as [|td tds]; [constructor|].
  apply Forall_forall. intros p Hp.
  apply list_elem_of_In, in_map_iff in Hp. destruct Hp as (n & <- & Hn).
  cbn [p_name].
  pose proof (split_names_stable (cell (td :: tds) na)) as Hs.
  rewrite Forall_forall in Hs. apply Hs, list_elem_of_In, Hn.
Qed.

(** The names [extract_params] emits are already split: [render_class],
    which splits them again, sees every emitted row as exactly one alias
    (or as none, when its flags exclude it). *)
Theorem extracted_rows_single_alias (tables : list Table) :
  Forall (fun p =>
            split_names (p_name p) = [p_name p] /\
            row_aliases p = if excluded (lower (p_flags p)) then []
                            else [(p, p_name p)])
         (extract_params tables).
Proof.
  rewrite extract_find. destruct (List.find yields_rows tables) as [t|];
    [|constructor].
  eapply Forall_impl; [apply table_rows_stable|].
  intros p Hp. split; [exact Hp|]. unfold row_aliases.
  destruct (excluded _); [reflexivity|]. rewrite Hp. reflexivity.
Qed.

(** Whenever [extract_params] returns a row, [section_has_param_table]
    accepts the section; the converse fails for a parameter table without
    body rows. *)
Theorem extract_params_needs_table (tables : list Table) :
  (extract_params tables = [] \/ section_has_param_table tables = true) /\
  (section_has_param_table bare_section = true /\
   extract_params bare_section = []).
Proof.
  split; [|split; reflexivity].
  rewrite extract_find.
  destruct (List.find yields_rows tables) as [t|] eqn:E; [right | left; reflexivity].
  apply find_some in E. destruct E as [Hin Hy].
  unfold section_has_param_table. apply existsb_exists. exists t.
  split; [exact Hin|]. unfold yields_rows in Hy. apply andb_prop in Hy.
  destruct Hy as [Hh _]. cbv zeta.
  destruct (map lower (th t)); [discriminate Hh | exact Hh].
Qed.

End ExtractFacts.

Section CamelFacts.
Import PyStr Re Generator Notions Extract.

Lemma chars_filter (keep : ascii -> bool) (s : string) :
  chars (filter_chars keep s) = List.filter keep (chars s).
Proof.
  unfold chars. induction s as [|c s IH]; cbn; [reflexivity|].
  destruct (keep c); cbn; [f_equal|]; exact IH.
Qed.

Lemma upper_char_alpha (c : ascii) :
  is_alpha c = true ->
  is_alnum (upper_char c) = true /\ is_upper (upper_char c) = true.
Proof.
  destruct c as [[] [] [] [] [] [] [] []]; intros H;
    try discriminate H; split; reflexivity.
Qed.

Lemma alnum_not_alpha (c : ascii) :
  is_alnum c = true -> is_alpha c = false -> is_digit c = true.
Proof.
  unfold is_alnum. intros H Ha. rewrite Ha in H. exact H.
Qed.

Lemma title_first (s : string) :
  filter_chars is_alnum (title_go false s) = "" \/
  exists c rest,
    filter_chars is_alnum (title_go false s) = String c rest /\
    (is_upper c || is_digit c) = true.
Proof.
  induction s as [|c s IH]; cbn [title_go filter_chars]; [left; reflexivity|].
  destruct (is_alpha c) eqn:Ha.
  - destruct (upper_char_alpha c Ha) as [Hn Hu].
    cbn [filter_chars]. rewrite Hn. right. eexists _, _.
    split; [reflexivity|]. rewrite Hu. reflexivity.
  - cbn [filter_chars]. destruct (is_alnum c) eqn:Hn; [|exact IH].
    right. eexists _, _. split; [reflexivity|].
    rewrite (alnum_not_alpha c Hn Ha). apply orb_true_r.
Qed.


End CamelFacts.

Section BuilderFacts.
Import PyStr Re Generator Dict Utils SceneModel Notions Extract.
Context {R T : Type}.

(** Adding an asset through the builder and building, or building and
    adding it to the scene, gives the same scene and leaves the plugin with
    the same identifier. *)
Theorem asset_before_or_after_build (builder : SceneBuilder R T)
        (plugin : Plugin R T) :
  build (fst (b_asset builder plugin))
  = fst (fst (add_asset (build builder) plugin)) /\
  snd (b_asset builder plugin) = snd (fst (add_asset (build builder) plugin)).
Proof.
  unfold b_asset, add_asset, build, Scene_init.
  cbn [assets scene_id integrator sensors shapes emitters media or_empty
       _assets _integrator _sensors _shapes _emitters _media _id fst snd].
  split; reflexivity.
Qed.

End BuilderFacts.

Section Witnesses.
Import PyStr Re Generator Dict Utils SceneModel Notions Extract Exact Examples.
Import MoreExamples.

Lemma normalize_leading_digit_witness :
  exists rest, normalize "3d" = String "3"%char rest.
Proof. exact (normalize_leading_digit "3"%char "d" eq_refl). Defined.

Lemma param_docs_listing_witness :
  render_parts sphere_spec "Shapes" = Ok sphere_parts /\
  length (param_docs sphere_parts) = 4 /\
  length (fields sphere_parts) = 4.
Proof.
  assert (H : render_parts sphere_spec "Shapes" = Ok sphere_parts)
    by (vm_compute; reflexivity).
  split; [exact H|].
  destruct (param_docs_listing sphere_spec "Shapes" sphere_parts H)
    as (_ & _ & Hlen).
  split; [rewrite Hlen|]; reflexivity.
Defined.

Lemma reserved_entries_witness :
  to_dict plain one_sensor_scene = Ok one_sensor_dict /\
  dict_get "id" one_sensor_dict = Some (VStr "main") /\
  dict_get "type" one_sensor_dict = Some (VStr "scene").
Proof.
  assert (H : to_dict plain one_sensor_scene = Ok one_sensor_dict)
    by (vm_compute; reflexivity).
  split; [exact H|].
  destruct (reserved_entries plain one_sensor_scene one_sensor_dict H)
    as (Hid & _ & Hty & _).
  split; [apply Hid; reflexivity | apply Hty; compute_done].
Defined.

Lemma sensor_entries_indexed_witness :
  to_dict plain two_sensors_scene = Ok two_sensors_dict /\
  Ok <$> dict_get "sensor_1" two_sensors_dict
  = Some (serialize plain (VPlugin second_camera)) /\
  dict_get "sensor_2" two_sensors_dict = None.
Proof.
  assert (H : to_dict plain two_sensors_scene = Ok two_sensors_dict)
    by (vm_compute; reflexivity).
  split; [exact H|].
  destruct (sensor_entries_indexed plain two_sensors_scene two_sensors_dict H
              ltac:(discriminate)) as (Hin & Hout & _).
  destruct (Hin 1 second_camera eq_refl) as (v & Hv & Hg).
  split.
  - change "sensor_1" with (sensor_key 1). rewrite Hg by compute_done.
    rewrite Hv. reflexivity.
  - change "sensor_2" with (sensor_key 2). apply Hout; [cbn; lia|].
    compute_done.
Defined.

Lemma asset_entries_witness :
  to_dict plain scene_with_asset_2 = Ok asset_scene_dict /\
  Ok <$> dict_get "asset_2" asset_scene_dict
  = Some (serialize plain (VPlugin (set_id red "asset_2"))).
Proof.
  assert (H : to_dict plain scene_with_asset_2 = Ok asset_scene_dict)
    by (vm_compute; reflexivity).
  split; [exact H|].
  destruct (asset_entries plain scene_with_asset_2 asset_scene_dict
              "asset_2" (set_id red "asset_2") H
              ltac:(apply NoDup_singleton) eq_refl) as (v & Hv & Hg).
  rewrite Hg by (left; reflexivity). rewrite Hv. reflexivity.
Defined.

Lemma add_asset_ref_resolves_witness :
  snd (add_asset empty_scene red) = Ref "asset_1" /\
  Ok <$> dict_get "asset_1" red_scene_dict
  = Some (serialize plain (VPlugin (set_id red "asset_1"))).
Proof.
  destruct (add_asset_ref_resolves plain empty_scene red red_scene_dict
              ltac:(constructor) ltac:(vm_compute; reflexivity))
    as (key & v & Href & Hid & Hv & Hg).
  vm_compute in Hid. injection Hid as <-.
  split; [reflexivity|].
  rewrite Hg by (left; reflexivity).
  change (snd (fst (add_asset empty_scene red)))
    with (set_id red "asset_1") in Hv.
  rewrite Hv. reflexivity.
Defined.



Lemma plugin_to_dict_entries_witness :
  exists d,
    serialize plain (VPlugin ball) = Ok (VDict d) /\
    dict_get "radius" d = Some (VInt 1) /\
    dict_get "bsdf" d = None.
Proof.
  destruct (plugin_to_dict_entries plain "sphere" None
              [("radius", VInt 1); ("bsdf", VNone)]
              (VDict [("type", VStr "sphere"); ("radius", VInt 1)])
              eq_refl) as (d & Hd & _ & _ & Hattr & _).
  { apply NoDup_cons. split; [|apply NoDup_singleton].
    intros H. apply list_elem_of_singleton in H. discriminate H. }
  injection Hd as <-. eexists. split; [reflexivity|].
  split.
  - destruct (Hattr "radius" (VInt 1) eq_refl ltac:(discriminate)
                    ltac:(discriminate)) as (v' & Hv & Hg).
    injection Hv as <-. exact Hg.
  - exact (Hattr "bsdf" VNone eq_refl ltac:(discriminate)
                 ltac:(discriminate)).
Defined.

End Witnesses.
